(** * webby: sockets and the HTTP request parser

    A shallow embedding of [include/net/socket.hpp] ([net::socket],
    [net::socket_impl]) and [include/webby/request.hpp] ([webby::request]),
    with the properties of the connection-and-protocol layer stated over it.

    Member functions become functions in a state-and-exception monad over a
    [world]: the kernel's descriptor table, the heap cells owned by
    [std::shared_ptr<int>] and [errno].  Diagnostic logging
    ([_config.error_log() << ...]) has no effect on the values computed and is
    left out. *)

From Stdlib Require Import ZArith String Ascii DecimalString.
From stdpp Require Import base option gmap strings list.

Local Open Scope Z_scope.
Local Open Scope string_scope.

(** ** Strings and buffers *)

(** [std::to_string] and [operator<<] on integers. *)
Definition Z_to_string (z : Z) : string := NilZero.string_of_int (Z.to_int z).

(** The first [n] bytes of a buffer, and what follows them. *)
Fixpoint str_take (n : nat) (s : string) : string :=
  match n, s with
  | S n', String c s' => String c (str_take n' s')
  | _, _ => EmptyString
  end.

Fixpoint str_drop (n : nat) (s : string) : string :=
  match n, s with
  | S n', String _ s' => str_drop n' s'
  | _, _ => s
  end.

Definition CR : ascii := "013"%char.
Definition LF : ascii := "010"%char.
Definition CRLF : string := String CR (String LF EmptyString).

(** [no_char c s]: the byte [c] does not occur in [s]. *)
Fixpoint no_char (c : ascii) (s : string) : bool :=
  match s with
  | EmptyString => true
  | String a s' => negb (Ascii.eqb a c) && no_char c s'
  end.

(** ** Exceptions and outcomes *)

Inductive exn : Type :=
  | socket_error (what_arg : string)    (* net::socket_error *)
  | request_error (what_arg : string)   (* webby::request::error *)
  | out_of_range.                       (* std::out_of_range, from std::map::at *)

(** A call returns, throws, ends the process, or dereferences a pointer that
    holds nothing ([Fault]: [*_fd] on a handle without a descriptor).
    [Aborts e]: the exception [e] tried to leave a function that is
    [noexcept]; [std::terminate] is called, no handler is entered and the
    process ends there. *)
Inductive outcome (A : Type) : Type :=
  | Returns (a : A)
  | Throws (e : exn)
  | Aborts (e : exn)
  | Fault.
Arguments Returns {A} a.
Arguments Throws {A} e.
Arguments Aborts {A} e.
Arguments Fault {A}.

(** ** The world the sockets live in *)

(** [fds]: the descriptor table; an open descriptor maps to the bytes pending
    in its receive queue (everything the peer sends before it closes its end).
    [heap]: the [int] cells created by [std::make_shared<int>], each with its
    use count.  [closes]: every call of [::close] so far with its result,
    oldest first.  *)
Record world : Type := World {
  fds : gmap Z string;
  heap : gmap nat (Z * nat);
  closes : list (Z * Z);
  errno : Z
}.

Definition set_fds (f : gmap Z string → gmap Z string) (w : world) : world :=
  World (f (fds w)) (heap w) (closes w) (errno w).
Definition set_heap (f : gmap nat (Z * nat) → gmap nat (Z * nat)) (w : world) : world :=
  World (fds w) (f (heap w)) (closes w) (errno w).
Definition set_errno (e : Z) (w : world) : world :=
  World (fds w) (heap w) (closes w) e.
Definition log_close (fd r : Z) (w : world) : world :=
  World (fds w) (heap w) (closes w ++ [(fd, r)]) (errno w).

Definition M (A : Type) : Type := world → outcome A * world.

Global Instance M_ret : MRet M := λ A a w, (Returns a, w).
Global Instance M_bind : MBind M := λ A B f m w,
  match m w with
  | (Returns a, w') => f a w'
  | (Throws e, w') => (Throws e, w')
  | (Aborts e, w') => (Aborts e, w')
  | (Fault, w') => (Fault, w')
  end.

Definition throw {A : Type} (e : exn) : M A := λ w, (Throws e, w).

(** A function whose exception specification is [noexcept]: an exception that
    would leave it calls [std::terminate] instead. *)
Definition noexcept {A : Type} (m : M A) : M A := λ w,
  match m w with
  | (Throws e, w') => (Aborts e, w')
  | r => r
  end.
Definition fault {A : Type} : M A := λ w, (Fault, w).
Definition get_errno : M Z := λ w, (Returns (errno w), w).

(** ** System calls *)

Definition EBADF : Z := 9.

(** [::close(fd)]: 0 and the descriptor leaves the table, or -1 with
    [errno = EBADF] when [fd] is not an open descriptor. *)
Definition sys_close (fd : Z) : M Z := λ w,
  match fds w !! fd with
  | Some _ => (Returns 0, log_close fd 0 (set_fds (delete fd) w))
  | None => (Returns (-1), log_close fd (-1) (set_errno EBADF w))
  end.

(** [::recv(fd, buffer, length, peek ? MSG_PEEK : 0)]: the result and the bytes
    stored in the buffer.  The queue of a world is the whole of what the peer
    sends before it closes its end, so the calls modelled are those of a run
    in which these bytes have arrived and the peer has closed: on an empty
    queue the answer is 0.  With the peer still open and nothing pending the
    program blocks in [::recv]; that wait, and with it what the program does
    on a connection that never ends, is outside the model. *)
Definition sys_recv (fd : Z) (length : nat) (peek : bool) : M (Z * string) := λ w,
  match fds w !! fd with
  | Some q =>
      let got := str_take length q in
      (Returns (Z.of_nat (String.length got), got),
       if peek then w else set_fds <[fd := str_drop length q]> w)
  | None => (Returns (-1, EmptyString), set_errno EBADF w)
  end.

(** ** std::shared_ptr<int> *)

(** A [shared_ptr<int>] is empty or names a heap cell. *)
Definition shared_ptr : Type := option nat.

Definition make_shared (v : Z) : M shared_ptr := λ w,
  let l := fresh (dom (heap w)) in
  (Returns (Some l), set_heap <[l := (v, 1%nat)]> w).

(** Copy construction: one more owner of the same cell. *)
Definition shared_copy (p : shared_ptr) : M shared_ptr := λ w,
  match p with
  | Some l =>
      match heap w !! l with
      | Some (v, n) => (Returns p, set_heap <[l := (v, S n)]> w)
      | None => (Fault, w)
      end
  | None => (Returns None, w)
  end.

(** Destruction of a [shared_ptr]: one owner less; the cell is freed with the
    last one. *)
Definition shared_release (p : shared_ptr) : M unit := λ w,
  match p with
  | Some l =>
      match heap w !! l with
      | Some (v, S (S n)) => (Returns tt, set_heap <[l := (v, S n)]> w)
      | Some (v, _) => (Returns tt, set_heap (delete l) w)
      | None => (Fault, w)
      end
  | None => (Returns tt, w)
  end.

(** [*p] *)
Definition deref (p : shared_ptr) : M Z := λ w,
  match p with
  | Some l =>
      match heap w !! l with
      | Some (v, _) => (Returns v, w)
      | None => (Fault, w)
      end
  | None => (Fault, w)
  end.

Definition use_count (p : shared_ptr) (w : world) : nat :=
  match p with
  | Some l => match heap w !! l with Some (_, n) => n | None => 0%nat end
  | None => 0%nat
  end.

(** The address held by the pointer, 0 for the null pointer. *)
Definition get (p : shared_ptr) : N :=
  match p with
  | Some l => N.succ (N.of_nat l)
  | None => 0%N
  end.

(** [p < 0]: the literal 0 converts to [nullptr], and the comparison is
    [std::less<int*>()(p.get(), nullptr)]. *)
Definition shared_lt_null (p : shared_ptr) : bool := (get p <? 0)%N.

(** ** net::socket *)

Record socket : Type := Socket { _fd : shared_ptr }.

(** [socket()] *)
Definition socket_default : M socket := mret (Socket None).

(** [socket(int fd) : _fd(std::make_shared<int>(fd))] *)
Definition socket_of_fd (fd : Z) : M socket :=
  p ← make_shared fd; mret (Socket p).

(** [socket(const socket& s) : _fd(s._fd)] *)
Definition socket_copy (s : socket) : M socket :=
  p ← shared_copy (_fd s); mret (Socket p).

(** [~socket()]: the body, then the destruction of the member [_fd].  The
    destructor has no exception specification of its own and its only member
    is a [std::shared_ptr], so under [-std=c++11] (which both CMakeLists.txt
    set) it is implicitly [noexcept]: the [throw] of the body does not leave
    it, it ends the process. *)
Definition socket_dtor (s : socket) : M unit :=
  noexcept
    match _fd s with
    | Some _ =>
        fd ← deref (_fd s);
        r ← sys_close fd;
        if (r <? 0)%Z then
          e ← get_errno;
          throw (socket_error ("Error closing socket: " +:+ Z_to_string e))
        else shared_release (_fd s)
    | None => shared_release (_fd s)
    end.

(** [read_block(buffer, length, peek)]: the count returned and the bytes left
    in [buffer]. *)
Definition read_block (s : socket) (length : nat) (peek : bool) : M (nat * string) :=
  fd ← deref (_fd s);
  '(read_length, buffer) ← sys_recv fd length peek;
  if (read_length <? 0)%Z then
    e ← get_errno;
    throw (socket_error ("Error reading from connected host: " +:+ Z_to_string e))
  else mret (Z.to_nat read_length, buffer).

Definition BUFFER_SIZE : nat := 4096.

Definition is_eol (c : ascii) : bool := Ascii.eqb c CR || Ascii.eqb c LF.

(** The scan of [read_line]: [rest] is the part of the buffer from [p] on;
    the result is [p - buffer] and [found_eol] when the loop stops. *)
Fixpoint scan_eol (rest : string) (p found_eol : nat) : nat * nat :=
  match rest with
  | EmptyString => (p, found_eol)
  | String c rest' =>
      if (found_eol <? 2)%nat then
        scan_eol rest' (S p) (if is_eol c then S found_eol else found_eol)
      else (p, found_eol)
  end.

(** [read_line()].  [read_length - 2] is unsigned: below 2 it would wrap and
    the string constructor would read far past the buffer. *)
Definition read_line (s : socket) : M string :=
  '(read_length, buffer) ← read_block s BUFFER_SIZE true;
  if (0 <? read_length)%nat then
    let '(p, found_eol) := scan_eol buffer 0 0 in
    if (found_eol <? 2)%nat then throw (socket_error "Line not found")
    else
      '(read_length, buffer) ← read_block s p false;
      if (read_length <? 2)%nat then fault
      else mret (str_take (read_length - 2) buffer)
  else mret EmptyString.

(** ** net::socket_impl *)

Record addrinfo : Type := Addrinfo {
  ai_family : Z;
  ai_socktype : Z;
  ai_protocol : Z
}.

Record socket_impl : Type := SocketImpl {
  impl_socket : socket;            (* the base class subobject *)
  _res0 : option addrinfo
}.

(** [socket_impl() : socket(), _res0(nullptr)] *)
Definition socket_impl_default : M socket_impl :=
  s ← socket_default; mret (SocketImpl s None).

Section Create.

(** What the resolver and the kernel answer: [::getaddrinfo] (its result and
    the list it stores in [_res0]; the hints are the fixed ones of [create]),
    [gai_strerror], and [::socket] (its result and the world after it). *)
Variable sys_getaddrinfo : string → string → Z * option addrinfo.
Variable gai_strerror : Z → string.
Variable sys_socket : Z → Z → Z → world → Z * world.

(** [socket_impl::create(name, port)] *)
Definition create (si : socket_impl) (name : string) (port : N) : M socket_impl :=
  match _fd (impl_socket si) with
  | Some _ => throw (socket_error "Socket already exists.")
  | None =>
      let '(err, res0) := sys_getaddrinfo name (Z_to_string (Z.of_N port)) in
      if negb (err =? 0)%Z then
        throw (socket_error ("Could not resolve address: (" +:+ Z_to_string err
                              +:+ ") " +:+ gai_strerror err))
      else
        match res0 with
        | None => fault
        | Some res =>
            r ← (λ w, let '(r, w') := sys_socket (ai_family res) (ai_socktype res)
                                                 (ai_protocol res) w in
                      (Returns r, w'));
            p ← make_shared r;
            _ ← shared_release (_fd (impl_socket si));
            if shared_lt_null p then
              e ← get_errno;
              throw (socket_error ("Could not create socket: " +:+ Z_to_string e))
            else mret (SocketImpl (Socket p) res0)
        end
  end.

End Create.

(** ** webby/utility.hpp and webby/method.hpp *)

(** Modelled from the spec: [lowercase] and [no_case_compare] are declared in
    webby/utility.hpp and [webby::method] in webby/method.hpp; neither file is
    among the sources.  The spec has the header mapping with "keys compared
    case-insensitively" and the method "enumerated: CONNECT, DELETE, GET,
    HEAD, OPTIONS, POST, PUT, TRACE, or unrecognized".  [lowercase] maps the
    letters A-Z to a-z; [no_case_compare] is the strict order of the
    lower-cased keys.  [UNRECOGNIZED] stands for a value of [webby::method]
    that is none of the eight methods named; no statement of the parser
    stores it. *)
Definition to_lower (c : ascii) : ascii :=
  let n := nat_of_ascii c in
  if (65 <=? n)%nat && (n <=? 90)%nat then ascii_of_nat (n + 32) else c.

Fixpoint lowercase (s : string) : string :=
  match s with
  | EmptyString => EmptyString
  | String c s' => String (to_lower c) (lowercase s')
  end.

Definition no_case_compare (lhs rhs : string) : bool :=
  String.ltb (lowercase lhs) (lowercase rhs).

Inductive method : Type :=
  | CONNECT | DELETE | GET | HEAD | OPTIONS | POST | PUT | TRACE
  | UNRECOGNIZED.

(** ** std::map<std::string, std::string, no_case_compare> *)

(** The elements in the order of the comparator, as the tree iterates them. *)
Definition header_map : Type := list (string * string).

(** [find]: the value of the element whose key is equivalent to [k]. *)
Fixpoint map_find (k : string) (m : header_map) : option string :=
  match m with
  | [] => None
  | (k', v') :: m' =>
      if no_case_compare k k' then None
      else if no_case_compare k' k then map_find k m'
      else Some v'
  end.

(** [operator[]], the container after the call: a default element is added
    under [k] when no key is equivalent to [k]. *)
Fixpoint map_touch (k : string) (m : header_map) : header_map :=
  match m with
  | [] => [(k, EmptyString)]
  | (k', v') :: m' =>
      if no_case_compare k k' then (k, EmptyString) :: m
      else if no_case_compare k' k then (k', v') :: map_touch k m'
      else m
  end.

(** Assignment through the reference returned by [operator[]]. *)
Fixpoint map_put (k v : string) (m : header_map) : header_map :=
  match m with
  | [] => []
  | (k', v') :: m' =>
      if no_case_compare k k' then m
      else if no_case_compare k' k then (k', v') :: map_put k v m'
      else (k', v) :: m'
  end.

(** [m[k]] read: the value referred to and the container after the call. *)
Definition map_index (k : string) (m : header_map) : string * header_map :=
  let m' := map_touch k m in (default EmptyString (map_find k m'), m').

(** [m[k] = v] *)
Definition map_assign (k v : string) (m : header_map) : header_map :=
  map_put k v (map_touch k m).

(** ** webby::request *)

Record request : Type := Request {
  _worker : socket;
  _method : method;
  _path : string;
  _route : string;
  _header : header_map
}.

Definition set_method (m : method) (r : request) : request :=
  Request (_worker r) m (_path r) (_route r) (_header r).
Definition set_path (p : string) (r : request) : request :=
  Request (_worker r) (_method r) p (_route r) (_header r).
Definition set_header (h : header_map) (r : request) : request :=
  Request (_worker r) (_method r) (_path r) (_route r) h.

(** [set_route(route)] *)
Definition set_route (route : string) (r : request) : request :=
  Request (_worker r) (_method r) (_path r) route (_header r).

(** [header(name)]: [_header.at(name)] *)
Definition header (name : string) (r : request) : outcome string :=
  match map_find name (_header r) with
  | Some v => Returns v
  | None => Throws out_of_range
  end.

(** [has_header(name)]: [_header.count(name) == 1] *)
Definition has_header (name : string) (r : request) : bool :=
  match map_find name (_header r) with
  | Some _ => true
  | None => false
  end.

(** An iterator is at [cend()] when nothing is left in front of it. *)
Definition at_end (s : string) : bool :=
  match s with
  | EmptyString => true
  | String _ _ => false
  end.

(** [while(itr != cend() && *itr != c) ++itr]: the bytes passed, and the
    string from the iterator on. *)
Fixpoint advance_until (c : ascii) (s : string) : string * string :=
  match s with
  | EmptyString => (EmptyString, EmptyString)
  | String a s' =>
      if Ascii.eqb a c then (EmptyString, s)
      else let '(passed, from) := advance_until c s' in (String a passed, from)
  end.

(** [while(itr != cend() && *itr == c) ++itr]: the string from the iterator on. *)
Fixpoint advance_while (c : ascii) (s : string) : string :=
  match s with
  | EmptyString => EmptyString
  | String a s' => if Ascii.eqb a c then advance_while c s' else s
  end.

(** The chain of comparisons that stores the method; no branch is taken for
    any other token. *)
Definition store_method (m : string) (r : request) : request :=
  if String.eqb m "connect" then set_method CONNECT r
  else if String.eqb m "delete" then set_method DELETE r
  else if String.eqb m "get" then set_method GET r
  else if String.eqb m "head" then set_method HEAD r
  else if String.eqb m "options" then set_method OPTIONS r
  else if String.eqb m "post" then set_method POST r
  else if String.eqb m "put" then set_method PUT r
  else if String.eqb m "trace" then set_method TRACE r
  else r.

Definition invalid_request_line {A : Type} (request_line : string) : M A :=
  throw (request_error ("Invalid request line: " +:+ request_line)).

(** [process_request_line()] *)
Definition process_request_line (r : request) : M request :=
  request_line ← read_line (_worker r);
  let '(token, last) := advance_until " " request_line in
  if at_end last then invalid_request_line request_line
  else
    let m := lowercase token in
    let r := store_method m r in
    let '(_, first) := advance_until "/" last in
    if at_end first then invalid_request_line request_line
    else
      let '(path, last) := advance_until " " first in
      if at_end last then invalid_request_line request_line
      else mret (set_path path r).

(** The bytes pending on the descriptor a socket holds. *)
Definition fd_of (s : socket) (w : world) : option Z :=
  l ← _fd s; fst <$> heap w !! l.

Definition pending (s : socket) (w : world) : string :=
  default EmptyString (fd ← fd_of s w; fds w !! fd).

Section Parser.

(** [*(_header[name].crend())] reads the position before the first
    character of the stored value, which lies outside the string.  The
    byte found there is not given by the program; it is a parameter. *)
Variable crend_deref : string → ascii.

(** The test [name.length() > 0 && *(_header[name].crend()) == ','], and the
    map after it: [_header[name]] is evaluated only when [name] is not empty. *)
Definition continuation (name : string) (hdr : header_map) : bool * header_map :=
  if (0 <? String.length name)%nat then
    let '(v, hdr) := map_index name hdr in
    (Ascii.eqb (crend_deref v) ",", hdr)
  else (false, hdr).

(** The body of the loop of [process_header_lines] for one line: the
    current [name] and the map, before and after. *)
Definition header_line_body (header_line : string) (st : string * header_map)
    : string * header_map :=
  let '(name, hdr) := st in
  let header_line := advance_while " " header_line in
  let '(continued, hdr) := continuation name hdr in
  if continued then
    let '(v, hdr) := map_index name hdr in
    (name, map_assign name (v +:+ " " +:+ header_line) hdr)
  else
    let '(passed, itr) := advance_until ":" header_line in
    match itr with
    | EmptyString => (name, hdr)
    | String _ itr =>
        let name := passed in
        (name, map_assign name (advance_while " " itr) hdr)
    end.

(** The loop of [process_header_lines]; [None] when [fuel] iterations do not
    reach its end. *)
Fixpoint header_loop (fuel : nat) (s : socket) (header_line : string)
    (st : string * header_map) (w : world) : option (outcome header_map * world) :=
  if (0 <? String.length header_line)%nat then
    match fuel with
    | O => None
    | S fuel' =>
        let st' := header_line_body header_line st in
        match read_line s w with
        | (Returns next, w') => header_loop fuel' s next st' w'
        | (Throws e, w') => Some (Throws e, w')
        | (Aborts e, w') => Some (Aborts e, w')
        | (Fault, w') => Some (Fault, w')
        end
    end
  else Some (Returns (snd st), w).

(** [process_header_lines()].  The loop of the program has no bound of its
    own: it goes on for as long as lines arrive.  On the finite stream of a
    world every line read but the last takes bytes from the queue, so the
    bytes pending bound the iterations there ([header_loop_terminates]) and
    the fuel given is enough. *)
Definition header_lines_from (r : request) (header_line : string) : M request :=
  λ w,
    match header_loop (S (String.length (pending (_worker r) w))) (_worker r)
                      header_line (EmptyString, _header r) w with
    | Some (Returns hdr, w') => (Returns (set_header hdr r), w')
    | Some (Throws e, w') => (Throws e, w')
    | Some (Aborts e, w') => (Aborts e, w')
    | Some (Fault, w') => (Fault, w')
    | None => (Fault, w)
    end.

Definition process_header_lines (r : request) : M request :=
  header_line ← read_line (_worker r);
  header_lines_from r header_line.

(** [request(config, worker)].  The constructor has no initialiser for
    [_method]: when the parser starts the member holds what its storage held
    before, [garbage], which the program does not give.  [_path], [_route]
    and [_header] are default-constructed. *)
Definition request_ctor (garbage : method) (worker : socket) : M request :=
  r ← process_request_line (Request worker garbage EmptyString EmptyString []);
  process_header_lines r.

End Parser.

(** ** net::socket_impl and net::server, the rest *)

(** [~socket_impl()].  [freeaddrinfo(_res0)] releases the list of the
    resolver, which the world does not hold.  The body then calls
    [socket::~socket()] itself, and the destructor of the base class runs once
    more when the body is left: [~socket()] is executed twice on the same
    [_fd].  The first run does not clear the member: the second finds the
    pointer as it was and reads through it the [int] the cell held, [stale],
    also when the first run has given the cell back.  Both destructors are
    implicitly [noexcept]. *)
Definition socket_impl_dtor (si : socket_impl) : M unit :=
  noexcept
    match _fd (impl_socket si) with
    | Some _ =>
        stale ← deref (_fd (impl_socket si));
        _ ← socket_dtor (impl_socket si);
        noexcept
          (r ← sys_close stale;
           if (r <? 0)%Z then
             e ← get_errno;
             throw (socket_error ("Error closing socket: " +:+ Z_to_string e))
           else shared_release (_fd (impl_socket si)))
    | None =>
        _ ← socket_dtor (impl_socket si);
        socket_dtor (impl_socket si)
    end.

(** A system call that answers with an [int]. *)
Definition syscall (call : world → Z * world) : M Z :=
  λ w, let '(r, w') := call w in (Returns r, w').

(** The peer address [::accept] stores. *)
Record sockaddr_in : Type := SockaddrIn {
  sin_addr : Z;
  sin_port : Z
}.

(** [net::worker]: the socket and the address of the client. *)
Record worker : Type := Worker {
  worker_socket : socket;          (* the base class subobject *)
  _client_address : sockaddr_in;
  _address_length : Z
}.

Section Server.

(** What the resolver and the kernel answer, as for [create], and the calls
    of [net::server]: [::setsockopt(fd, SOL_SOCKET, SO_REUSEADDR, ...)],
    [::bind(fd, ai_addr, ai_addrlen)], [::listen(fd, backlog)] and
    [::accept(fd, &addr, &len)] (its result, the address and the length it
    stores). *)
Variable sys_getaddrinfo : string → string → Z * option addrinfo.
Variable gai_strerror : Z → string.
Variable sys_socket : Z → Z → Z → world → Z * world.
Variable sys_setsockopt : Z → world → Z * world.
Variable sys_bind : Z → addrinfo → world → Z * world.
Variable sys_listen : Z → Z → world → Z * world.
Variable sys_accept : Z → world → (Z * sockaddr_in * Z) * world.

(** [server::create(name, port)] *)
Definition server_create (sv : socket_impl) (name : string) (port : N) : M socket_impl :=
  sv ← create sys_getaddrinfo gai_strerror sys_socket sv name port;
  fd ← deref (_fd (impl_socket sv));
  r ← syscall (sys_setsockopt fd);
  if (r <? 0)%Z then
    e ← get_errno;
    throw (socket_error ("Could not configure socket: " +:+ Z_to_string e))
  else
    fd ← deref (_fd (impl_socket sv));
    match _res0 sv with
    | None => fault
    | Some res =>
        r ← syscall (sys_bind fd res);
        if (r <? 0)%Z then
          e ← get_errno;
          throw (socket_error ("Could not bind to socket: " +:+ Z_to_string e))
        else
          fd ← deref (_fd (impl_socket sv));
          r ← syscall (sys_listen fd 10000);
          if (r <? 0)%Z then
            e ← get_errno;
            throw (socket_error ("Could not listen for incoming connections: "
                                  +:+ Z_to_string e))
          else mret sv
    end.

(** [server::accept()]; the worker is built in place in the caller. *)
Definition accept (sv : socket_impl) : M worker :=
  fd ← deref (_fd (impl_socket sv));
  '(s, addr, len) ← (λ w, let '(res, w') := sys_accept fd w in (Returns res, w'));
  if (s <? 0)%Z then
    e ← get_errno;
    throw (socket_error ("Could not accept incoming connection: " +:+ Z_to_string e))
  else
    sock ← socket_of_fd s;
    mret (Worker sock addr len).

End Server.

(** ** webby::server, the default header *)


(** * The vocabulary of the statements *)

(** The world in which [q] is pending on descriptor [fd]. *)
Definition with_rx (fd : Z) (q : string) (w : world) : world :=
  set_fds <[fd := q]> w.

(** A line that [read_line] can carry: no CR, no LF, and room for the
    terminator in the window. *)
Definition line_ok (line : string) : bool :=
  no_char CR line && no_char LF line && (String.length line + 2 <=? BUFFER_SIZE)%nat.

(** [METHOD SP [prefix]path SP version] *)
Definition request_line_of (token pre path version : string) : string :=
  token +:+ String " " (pre +:+ path +:+ String " " version).

Definition starts_with_slash (path : string) : bool :=
  match path with
  | String c _ => Ascii.eqb c "/"
  | EmptyString => false
  end.



(** The request under construction when the parser starts: [_method] holds
    [garbage], the other members are empty. *)
Definition fresh_request (garbage : method) (worker : socket) : request :=
  Request worker garbage EmptyString EmptyString [].

(** The elements of a map are in the strict order of the comparator. *)
Fixpoint map_sorted (m : header_map) : Prop :=
  match m with
  | [] => True
  | (k, _) :: m' =>
      Forall (λ kv : string * string, no_case_compare k kv.1 = true) m' ∧ map_sorted m'
  end.

(** The lines of a header block, each followed by CRLF. *)
Fixpoint encode_lines (ls : list string) : string :=
  match ls with
  | [] => EmptyString
  | l :: ls' => l +:+ CRLF +:+ encode_lines ls'
  end.

(** The end of the block: the blank line and what follows it, or the end of
    the stream (the peer has closed). *)
Definition block_end (blank : bool) (rest : string) : string :=
  if blank then CRLF +:+ rest else EmptyString.

Definition after_block (blank : bool) (rest : string) : string :=
  if blank then rest else EmptyString.

(** A header line that [read_line] can carry; the empty line is the
    separator. *)
Definition carried (l : string) : bool := line_ok l && (0 <? String.length l)%nat.

(** The loop body over the lines of a block, in order. *)
Definition run_lines (crend_deref : string → ascii) (ls : list string)
    (st : string * header_map) : string * header_map :=
  fold_left (λ st l, header_line_body crend_deref l st) ls st.

(** The current name is empty or a key of the map. *)
Definition tracked (st : string * header_map) : Prop :=
  st.1 = EmptyString ∨ is_Some (map_find st.1 st.2).

(** The bytes of [s] that are CR or LF. *)
Fixpoint count_eol (s : string) : nat :=
  match s with
  | EmptyString => 0%nat
  | String c s' => ((if is_eol c then 1 else 0) + count_eol s')%nat
  end.

(** A name the parser can store: no colon in it, no space in front. *)
Definition header_name_ok (k : string) : bool :=
  no_char ":" k
  && match k with
     | String c _ => negb (Ascii.eqb c " ")
     | EmptyString => true
     end.

Definition names_ok (m : header_map) : Prop :=
  Forall (λ kv : string * string, header_name_ok kv.1 = true) m.

(** ** Concrete connections, for the examples *)

(** A descriptor, open and idle. *)
Definition one_descriptor : world := World {[ 5 := EmptyString ]} ∅ [] 0.

(** [socket s(5); socket t(s);] and the end of the scope of [t]. *)
Definition copy_then_destroy_copy : M socket :=
  s ← socket_of_fd 5; t ← socket_copy s; _ ← socket_dtor t; mret s.

(** A handle on descriptor 7, which is not open. *)
Definition stale_world : world := World ∅ {[ 0%nat := (7, 1%nat) ]} [] 0.

Definition stale_socket : socket := Socket (Some 0%nat).

(** A resolver that knows every name and a kernel that has run out of
    descriptors. *)
Definition resolves_all (name service : string) : Z * option addrinfo :=
  (0, Some (Addrinfo 2 1 6)).

Definition no_descriptor_left (family socktype protocol : Z) (w : world) : Z * world :=
  (-1, set_errno 24 w).

(** A connection: descriptor 5, held by one handle, with [q] pending. *)
Definition conn_world (q : string) : world :=
  World {[ 5 := q ]} {[ 0%nat := (5, 1%nat) ]} [] 0.

Definition conn : socket := Socket (Some 0%nat).

(** A line with a bare LF inside, terminated by CRLF. *)
Definition bare_lf_line : string := String "a" (String LF (String "b" EmptyString)).

Fixpoint str_repeat (c : ascii) (n : nat) : string :=
  match n with
  | O => EmptyString
  | S n' => String c (str_repeat c n')
  end.

(** A header line of 4095 bytes: with its CRLF it does not fit the window. *)
Definition long_header_line : string := "X: " +:+ str_repeat "a" 4092.

(** An implementation whose strings have a zero byte in front of their
    characters. *)
Definition zero_before (v : string) : ascii := "000"%char.

(** A kernel that hands out descriptor 3, a resolver that knows no name, and
    calls that succeed or fail. *)
Definition socket_gives_3 (family socktype protocol : Z) (w : world) : Z * world :=
  (3, with_rx 3 EmptyString w).

Definition resolves_nothing (name service : string) : Z * option addrinfo :=
  (-2, None).

Definition gai_text (err : Z) : string := "Name or service not known".

Definition setsockopt_ok (fd : Z) (w : world) : Z * world := (0, w).

Definition bind_in_use (fd : Z) (res : addrinfo) (w : world) : Z * world :=
  (-1, set_errno 98 w).

Definition listen_ok (fd backlog : Z) (w : world) : Z * world := (0, w).

(** A client on descriptor 7 that has sent a request line. *)
Definition accepts_7 (fd : Z) (w : world) : (Z * sockaddr_in * Z) * world :=
  ((7, SockaddrIn 2130706433 40000, 16), with_rx 7 "GET / HTTP/1.1" w).

(** An endpoint that listens on descriptor 3. *)
Definition listening : socket_impl := SocketImpl (Socket (Some 0%nat)) (Some (Addrinfo 2 1 6)).
Definition listening_world : world :=
  World {[ 3 := EmptyString ]} {[ 0%nat := (3, 1%nat) ]} [] 0.

(** An implementation whose strings have a comma in front of their
    characters. *)
Definition comma_before (v : string) : ascii := ","%char.

(** * Properties *)

(** ** The monad *)

Lemma bind_returns {A B : Type} (m : M A) (f : A → M B) (w w' : world) (a : A) :
  m w = (Returns a, w') → (m ≫= f) w = f a w'.
Proof. intros H. unfold mbind, M_bind. by rewrite H. Qed.

Lemma bind_throws {A B : Type} (m : M A) (f : A → M B) (w w' : world) (e : exn) :
  m w = (Throws e, w') → (m ≫= f) w = (Throws e, w').
Proof. intros H. unfold mbind, M_bind. by rewrite H. Qed.


Lemma bind_fault {A B : Type} (m : M A) (f : A → M B) (w w' : world) :
  m w = (Fault, w') → (m ≫= f) w = (Fault, w').
Proof. intros H. unfold mbind, M_bind. by rewrite H. Qed.

Lemma fd_of_Some (s : socket) (w : world) (fd : Z) :
  fd_of s w = Some fd → ∃ l n, _fd s = Some l ∧ heap w !! l = Some (fd, n).
Proof.
  unfold fd_of. destruct (_fd s) as [l|]; simpl; [|done].
  destruct (heap w !! l) as [[v n]|] eqn:E; simpl; [|done].
  intros [= <-]. by exists l, n.
Qed.

Lemma deref_fd_of (s : socket) (w : world) (fd : Z) :
  fd_of s w = Some fd → deref (_fd s) w = (Returns fd, w).
Proof.
  intros (l & n & Hs & Hl)%fd_of_Some. unfold deref. by rewrite Hs, Hl.
Qed.

(** ** Lifetime of the descriptor *)

(** The destructor closes the descriptor whatever the use count of the
    shared cell: every handle closes, not only the last one. *)
Lemma socket_dtor_closes (s : socket) (w : world) (fd : Z) (q : string) :
  fd_of s w = Some fd → fds w !! fd = Some q →
  ∃ w', socket_dtor s w = (Returns tt, w') ∧ fds w' !! fd = None
        ∧ closes w' = (closes w ++ [(fd, 0)])%list.
Proof.
  intros Hfd Hq. destruct (fd_of_Some _ _ _ Hfd) as (l & n & Hs & Hl).
  unfold socket_dtor, noexcept. rewrite Hs, <- Hs.
  rewrite (bind_returns _ _ _ _ _ (deref_fd_of _ _ _ Hfd)).
  unfold mbind, M_bind, sys_close. rewrite Hq. simpl.
  unfold shared_release. rewrite Hs. simpl. rewrite Hl.
  destruct n as [|[|n]]; eexists; (split; [reflexivity|]); simpl;
    by rewrite lookup_delete_eq.
Qed.

(** C1 (the code departs from the specification): a descriptor shared by a socket and
    its copy is not closed once, at the last owner.  Destroying the copy
    closes descriptor 5 while the original still owns it (use count 1), and
    destroying the original calls [::close(5)] a second time, which fails with
    [EBADF] and makes the destructor throw; the destructor being [noexcept],
    the process ends there. *)
Theorem copied_socket_closes_twice :
  ∃ s w w',
    copy_then_destroy_copy one_descriptor = (Returns s, w)
    ∧ use_count (_fd s) w = 1%nat
    ∧ fds w !! 5 = None
    ∧ closes w = [(5, 0)]
    ∧ socket_dtor s w = (Aborts (socket_error "Error closing socket: 9"), w')
    ∧ closes w' = [(5, 0); (5, -1)].
Proof.
  eexists _, _, _. split; [vm_compute; reflexivity|].
  repeat split; vm_compute; reflexivity.
Qed.

(** A close that fails ends the process from within the destructor. *)
Lemma socket_dtor_fails (s : socket) (w : world) (fd : Z) :
  fd_of s w = Some fd → fds w !! fd = None →
  socket_dtor s w
  = (Aborts (socket_error ("Error closing socket: " +:+ Z_to_string EBADF)),
     log_close fd (-1) (set_errno EBADF w)).
Proof.
  intros Hfd Hq. destruct (fd_of_Some _ _ _ Hfd) as (l & n & Hs & Hl).
  unfold socket_dtor, noexcept. rewrite Hs, <- Hs.
  rewrite (bind_returns _ _ _ _ _ (deref_fd_of _ _ _ Hfd)).
  unfold mbind, M_bind, sys_close. rewrite Hq. done.
Qed.

(** C2 (the code departs from the specification): the destructor of a
    socket does not report a failed [::close] and go on.  When closing the
    descriptor fails ([EBADF] here: the descriptor is not open) the body
    throws [socket_error] with the message "Error closing socket: " followed
    by [errno]; the destructor is [noexcept], so the exception reaches no
    handler and the process is ended by [std::terminate].  The destructor
    returns when the close succeeds. *)
Theorem socket_dtor_aborts_when_close_fails (s : socket) (w : world) (fd : Z) :
  fd_of s w = Some fd →
  fst (socket_dtor s w)
  = match fds w !! fd with
    | Some _ => Returns tt
    | None => Aborts (socket_error ("Error closing socket: " +:+ Z_to_string EBADF))
    end.
Proof.
  intros Hfd. destruct (fds w !! fd) as [q|] eqn:Hq.
  - destruct (socket_dtor_closes _ _ _ _ Hfd Hq) as (w' & -> & _). done.
  - by rewrite (socket_dtor_fails _ _ _ Hfd Hq).
Qed.

Lemma socket_dtor_aborts_when_close_fails_witness :
  fd_of stale_socket stale_world = Some 7
  ∧ fst (socket_dtor stale_socket stale_world)
    = Aborts (socket_error "Error closing socket: 9").
Proof.
  split; [reflexivity|].
  exact (socket_dtor_aborts_when_close_fails stale_socket stale_world 7 eq_refl).
Defined.

(** A handle without a descriptor is destroyed without a call of [::close]. *)
Lemma socket_dtor_empty (s : socket) (w : world) :
  _fd s = None → socket_dtor s w = (Returns tt, w).
Proof. intros H. unfold socket_dtor. by rewrite H. Qed.

(** ** Creation of the endpoint *)

Lemma shared_lt_null_false (p : shared_ptr) : shared_lt_null p = false.
Proof. unfold shared_lt_null. apply N.ltb_ge. lia. Qed.

(** C4 (the code departs from the specification): when the address resolves and
    [::socket] returns a negative result [r], [create] does not throw: the test
    after the call compares the shared pointer, not the descriptor, with 0.
    [create] returns with [_fd] holding [r]. *)
Theorem create_returns_when_socket_fails
    (sys_getaddrinfo : string → string → Z * option addrinfo)
    (gai_strerror : Z → string)
    (sys_socket : Z → Z → Z → world → Z * world)
    (si : socket_impl) (name : string) (port : N) (res : addrinfo)
    (r : Z) (w w1 : world) :
  _fd (impl_socket si) = None →
  sys_getaddrinfo name (Z_to_string (Z.of_N port)) = (0, Some res) →
  sys_socket (ai_family res) (ai_socktype res) (ai_protocol res) w = (r, w1) →
  r < 0 →
  ∃ l w2,
    create sys_getaddrinfo gai_strerror sys_socket si name port w
    = (Returns (SocketImpl (Socket (Some l)) (Some res)), w2)
    ∧ heap w2 !! l = Some (r, 1%nat).
Proof.
  intros Hfd Hres Hsock Hr. unfold create. rewrite Hfd, Hres. simpl.
  unfold mbind, M_bind. rewrite Hsock. simpl.
  rewrite shared_lt_null_false. simpl.
  eexists _, _. split; [reflexivity|]. simpl. apply lookup_insert_eq.
Qed.

Lemma create_returns_when_socket_fails_witness :
  ∃ l w2,
    create resolves_all (λ _, EmptyString) no_descriptor_left
           (SocketImpl (Socket None) None) "localhost" 8080 (World ∅ ∅ [] 0)
    = (Returns (SocketImpl (Socket (Some l)) (Some (Addrinfo 2 1 6))), w2)
    ∧ heap w2 !! l = Some (-1, 1%nat).
Proof.
  apply (create_returns_when_socket_fails resolves_all (λ _, EmptyString)
           no_descriptor_left (SocketImpl (Socket None) None) "localhost" 8080
           (Addrinfo 2 1 6) (-1) (World ∅ ∅ [] 0) (set_errno 24 (World ∅ ∅ [] 0)));
    [reflexivity | reflexivity | reflexivity | lia].
Defined.

(** ** Buffers *)

Lemma length_str_take (n : nat) (s : string) :
  String.length (str_take n s) = (n `min` String.length s)%nat.
Proof.
  revert n. induction s as [|c s IH]; intros [|n]; simpl; auto.
Qed.

Lemma length_str_drop (n : nat) (s : string) :
  String.length (str_drop n s) = (String.length s - n)%nat.
Proof.
  revert n. induction s as [|c s IH]; intros [|n]; simpl; auto.
Qed.

Lemma app_cons (c : ascii) (a b : string) : String c a +:+ b = String c (a +:+ b).
Proof. reflexivity. Qed.

Lemma app_nil (b : string) : EmptyString +:+ b = b.
Proof. reflexivity. Qed.

Lemma length_app (a b : string) :
  String.length (a +:+ b) = (String.length a + String.length b)%nat.
Proof.
  induction a as [|c a IH]; [done|]. rewrite app_cons. simpl. by rewrite IH.
Qed.

Lemma str_take_app (a b : string) (k : nat) :
  str_take (String.length a + k) (a +:+ b) = a +:+ str_take k b.
Proof.
  induction a as [|c a IH]; [done|]. rewrite !app_cons. simpl. by rewrite IH.
Qed.

Lemma str_drop_app (a b : string) (k : nat) :
  str_drop (String.length a + k) (a +:+ b) = str_drop k b.
Proof.
  induction a as [|c a IH]; [done|]. rewrite app_cons. simpl. by rewrite IH.
Qed.

Lemma str_take_0 (s : string) : str_take 0 s = EmptyString.
Proof. by destruct s. Qed.

Lemma str_take_empty (n : nat) : str_take n EmptyString = EmptyString.
Proof. by destruct n. Qed.

Lemma app_empty_r (s : string) : s +:+ EmptyString = s.
Proof. induction s as [|c s IH]; [done|]. by rewrite app_cons, IH. Qed.

Lemma app_assoc_str (a b c : string) : (a +:+ b) +:+ c = a +:+ (b +:+ c).
Proof. induction a as [|x a IH]; [done|]. by rewrite !app_cons, IH. Qed.

Lemma no_char_app (c : ascii) (a b : string) :
  no_char c (a +:+ b) = no_char c a && no_char c b.
Proof.
  induction a as [|x a IH]; [done|]. rewrite app_cons. simpl. rewrite IH.
  by rewrite andb_assoc.
Qed.

(** The scan passes a stretch without CR and LF, and stops behind the second
    of two such bytes. *)
Lemma scan_eol_line (line rest : string) (p : nat) :
  no_char CR line = true → no_char LF line = true →
  scan_eol (line +:+ CRLF +:+ rest) p 0 = ((p + String.length line + 2)%nat, 2%nat).
Proof.
  revert p. induction line as [|c line IH]; intros p Hcr Hlf.
  - rewrite app_nil. unfold CRLF. rewrite !app_cons, app_nil. simpl.
    destruct rest; simpl; f_equal; lia.
  - rewrite app_cons. simpl in *.
    apply andb_true_iff in Hcr as [Hc1 Hcr]. apply andb_true_iff in Hlf as [Hc2 Hlf].
    unfold is_eol. apply negb_true_iff in Hc1, Hc2. rewrite Hc1, Hc2. simpl.
    rewrite IH by done. f_equal. lia.
Qed.

(** ** Reading from the connection *)

Lemma with_rx_twice (fd : Z) (q q' : string) (w : world) :
  with_rx fd q' (with_rx fd q w) = with_rx fd q' w.
Proof. unfold with_rx, set_fds. simpl. by rewrite insert_insert_eq. Qed.

Lemma fds_with_rx (fd : Z) (q : string) (w : world) :
  fds (with_rx fd q w) !! fd = Some q.
Proof. unfold with_rx. simpl. apply lookup_insert_eq. Qed.

Lemma fd_of_with_rx (s : socket) (fd : Z) (q : string) (w : world) :
  fd_of s (with_rx fd q w) = fd_of s w.
Proof. reflexivity. Qed.

Lemma pending_with_rx (s : socket) (fd : Z) (q : string) (w : world) :
  fd_of s w = Some fd → pending s (with_rx fd q w) = q.
Proof.
  intros H. unfold pending. rewrite fd_of_with_rx, H. simpl.
  by rewrite lookup_insert_eq.
Qed.

(** A peek returns the head of the queue and leaves the world as it is. *)
Lemma read_block_peek (s : socket) (w : world) (fd : Z) (q : string) (n : nat) :
  fd_of s w = Some fd → fds w !! fd = Some q →
  read_block s n true w = (Returns (String.length (str_take n q), str_take n q), w).
Proof.
  intros Hfd Hq. unfold read_block.
  rewrite (bind_returns _ _ _ _ _ (deref_fd_of _ _ _ Hfd)).
  unfold mbind, M_bind, sys_recv. rewrite Hq. simpl.
  destruct (Z.ltb_spec (Z.of_nat (String.length (str_take n q))) 0); [lia|].
  unfold mret, M_ret. by rewrite Nat2Z.id.
Qed.

(** A read returns the head of the queue and removes it. *)
Lemma read_block_consume (s : socket) (w : world) (fd : Z) (q : string) (n : nat) :
  fd_of s w = Some fd → fds w !! fd = Some q →
  read_block s n false w
  = (Returns (String.length (str_take n q), str_take n q), with_rx fd (str_drop n q) w).
Proof.
  intros Hfd Hq. unfold read_block.
  rewrite (bind_returns _ _ _ _ _ (deref_fd_of _ _ _ Hfd)).
  unfold mbind, M_bind, sys_recv. rewrite Hq. simpl.
  destruct (Z.ltb_spec (Z.of_nat (String.length (str_take n q))) 0); [lia|].
  unfold mret, M_ret. by rewrite Nat2Z.id.
Qed.

Lemma line_ok_spec (line : string) :
  line_ok line = true →
  no_char CR line = true ∧ no_char LF line = true
  ∧ (String.length line + 2 ≤ BUFFER_SIZE)%nat.
Proof.
  unfold line_ok. intros [[H1 H2]%andb_true_iff H3]%andb_true_iff.
  by apply Nat.leb_le in H3.
Qed.

Lemma read_line_window (n : nat) (line rest : string) :
  (String.length line + 2 ≤ n)%nat →
  str_take n (line +:+ CRLF +:+ rest)
  = line +:+ CRLF +:+ str_take (n - String.length line - 2) rest.
Proof.
  intros H.
  replace n with (String.length line + (2 + (n - String.length line - 2)))%nat at 1 by lia.
  by rewrite str_take_app.
Qed.

Lemma read_line_pending (s : socket) (w : world) (fd : Z) (line rest : string) :
  fd_of s w = Some fd → fds w !! fd = Some (line +:+ CRLF +:+ rest) →
  line_ok line = true →
  read_line s w = (Returns line, with_rx fd rest w).
Proof.
  intros Hfd Hq (Hcr & Hlf & Hlen)%line_ok_spec. unfold read_line.
  remember BUFFER_SIZE as n eqn:Hn. clear Hn.
  rewrite (bind_returns _ _ _ _ _ (read_block_peek _ _ _ _ n Hfd Hq)).
  rewrite (read_line_window n line rest Hlen).
  set (t := str_take (n - String.length line - 2) rest).
  assert (String.length (line +:+ CRLF +:+ t) = S (S (String.length line + String.length t)))
    as -> by (rewrite !length_app; simpl; lia).
  change (0 <? S ?x)%nat with true. cbv iota.
  rewrite scan_eol_line by done.
  change (2 <? 2)%nat with false. cbv iota beta.
  rewrite (bind_returns _ _ _ _ _
             (read_block_consume _ _ _ _ (0 + String.length line + 2) Hfd Hq)).
  replace (0 + String.length line + 2)%nat with (String.length line + 2)%nat by lia.
  rewrite str_take_app, str_drop_app.
  replace (str_take 2 (CRLF +:+ rest)) with CRLF by reflexivity.
  replace (str_drop 2 (CRLF +:+ rest)) with rest by reflexivity.
  rewrite length_app.
  change (String.length CRLF) with 2%nat.
  destruct (Nat.ltb_spec (String.length line + 2) 2) as [Hlt|_].
  - destruct line; simpl in Hlt; lia.
  - replace (String.length line + 2 - 2)%nat with (String.length line + 0)%nat by lia.
    rewrite str_take_app, str_take_0. unfold mret, M_ret. by rewrite app_empty_r.
Qed.

(** At the end of the stream (the peer has closed, nothing is pending)
    [read_line] returns the empty string and throws nothing. *)
Lemma read_line_eof (s : socket) (w : world) (fd : Z) :
  fd_of s w = Some fd → fds w !! fd = Some EmptyString →
  read_line s w = (Returns EmptyString, w).
Proof.
  intros Hfd Hq. unfold read_line.
  rewrite (bind_returns _ _ _ _ _ (read_block_peek _ _ _ _ BUFFER_SIZE Hfd Hq)).
  by rewrite str_take_empty.
Qed.

(** C7 (the code departs from the specification): the pending bytes
    [a LF b CR LF rest] begin with the line [a LF b], ended by CRLF, and
    [read_line] does not return it.  The scan counts every byte that is CR or
    LF and stops at the second one, here the CR: the lone LF and the CR are
    taken for the end-of-line marker, though the scan is there to "look for
    the EOL marker (CRLF)".  The call returns [a LF], the byte [b] is lost
    with the CR, and the LF of the terminator stays in the queue in front of
    [rest]. *)
Lemma read_line_bare_lf :
  read_line conn (conn_world (bare_lf_line +:+ CRLF +:+ "rest"))
  = (Returns (String "a" (String LF EmptyString)), conn_world (String LF "rest"))
  ∧ read_line conn (conn_world (bare_lf_line +:+ CRLF +:+ "rest"))
    ≠ (Returns bare_lf_line, conn_world "rest").
Proof. split; [vm_compute; reflexivity | vm_compute; discriminate]. Qed.

(** X25: when the pending bytes begin with a line that holds no CR and no
    LF byte, followed by CRLF, all within the 4096-byte window, [read_line]
    returns the line without the terminator, takes the line and the
    terminator from the queue and nothing more, and a peek before the call
    sees the line, the terminator and then exactly what a peek after the call
    sees. *)
Theorem read_line_returns_line (s : socket) (w : world) (fd : Z) (line rest : string) :
  fd_of s w = Some fd → line_ok line = true →
  let before := with_rx fd (line +:+ CRLF +:+ rest) w in
  let after := with_rx fd rest w in
  read_line s before = (Returns line, after)
  ∧ ∀ n : nat, ∃ seen : string,
      read_block s n true after = (Returns (String.length seen, seen), after)
      ∧ read_block s (String.length line + 2 + n) true before
        = (Returns (String.length (line +:+ CRLF +:+ seen), line +:+ CRLF +:+ seen),
           before).
Proof.
  intros Hfd Hok before after. split.
  - unfold before, after. rewrite <- (with_rx_twice fd (line +:+ CRLF +:+ rest) rest w).
    apply read_line_pending; [done | apply fds_with_rx | done].
  - intros n. exists (str_take n rest). split.
    + apply (read_block_peek s after fd rest n); [done | apply fds_with_rx].
    + rewrite (read_block_peek s before fd (line +:+ CRLF +:+ rest)
                 (String.length line + 2 + n)); [|done | apply fds_with_rx].
      replace (String.length line + 2 + n)%nat
        with (String.length line + (2 + n))%nat by lia.
      by rewrite str_take_app.
Qed.

Lemma read_line_returns_line_witness :
  read_line conn (with_rx 5 ("Host: x" +:+ CRLF +:+ "Accept: y") (conn_world EmptyString))
  = (Returns "Host: x", with_rx 5 "Accept: y" (conn_world EmptyString)).
Proof.
  exact (proj1 (read_line_returns_line conn (conn_world EmptyString) 5 "Host: x" "Accept: y"
                  eq_refl eq_refl)).
Defined.

(** ** The request line *)

Lemma advance_until_found (c : ascii) (a b : string) :
  no_char c a = true →
  advance_until c (a +:+ String c b) = (a, String c b).
Proof.
  induction a as [|x a IH]; intros H.
  - rewrite app_nil. simpl. by rewrite Ascii.eqb_refl.
  - rewrite app_cons. simpl in *. apply andb_true_iff in H as [Hx Ha].
    apply negb_true_iff in Hx. rewrite Hx. by rewrite IH.
Qed.


(** What the body of [process_request_line] does with a line read. *)
Lemma process_request_line_shape (r : request) (w : world) (fd : Z)
    (token pre path version rest : string) :
  fd_of (_worker r) w = Some fd →
  no_char " " token = true → no_char "/" pre = true →
  starts_with_slash path = true → no_char " " path = true →
  line_ok (request_line_of token pre path version) = true →
  process_request_line r
    (with_rx fd (request_line_of token pre path version +:+ CRLF +:+ rest) w)
  = (Returns (set_path path (store_method (lowercase token) r)), with_rx fd rest w).
Proof.
  intros Hfd Htok Hpre Hslash Hpath Hok. unfold process_request_line.
  rewrite (bind_returns _ _ _ (with_rx fd rest w) (request_line_of token pre path version)).
  2:{ rewrite <- (with_rx_twice fd (request_line_of token pre path version +:+ CRLF +:+ rest)
                    rest w).
      apply read_line_pending; [done | apply fds_with_rx | done]. }
  unfold request_line_of. rewrite advance_until_found by done. cbv iota beta.
  change (at_end (String " " ?x)) with false. cbv iota.
  destruct path as [|c p]; [done|]. simpl in Hslash, Hpath.
  apply Ascii.eqb_eq in Hslash as ->.
  apply andb_true_iff in Hpath as [_ Hp].
  change (advance_until "/" (String " " (pre +:+ String "/" p +:+ String " " version)))
    with (advance_until "/" (String " " pre +:+ String "/" (p +:+ String " " version))).
  rewrite (advance_until_found "/" (String " " pre)) by (simpl; done).
  cbv iota beta. change (at_end (String "/" ?x)) with false. cbv iota.
  change (advance_until " " (String "/" (p +:+ String " " version)))
    with (advance_until " " (String "/" p +:+ String " " version)).
  rewrite (advance_until_found " " (String "/" p)) by (simpl; done).
  done.
Qed.

Lemma line_ok_without (a b c : string) :
  line_ok (a +:+ b +:+ c) = true → line_ok (a +:+ c) = true.
Proof.
  unfold line_ok. rewrite !no_char_app, !length_app.
  intros [[H1 H2]%andb_true_iff H3]%andb_true_iff.
  apply andb_true_iff in H1 as [? [_ ?]%andb_true_iff].
  apply andb_true_iff in H2 as [? [_ ?]%andb_true_iff].
  apply Nat.leb_le in H3.
  repeat (apply andb_true_iff; split); try done. apply Nat.leb_le. lia.
Qed.

Lemma line_ok_without_prefix (token pre path version : string) :
  line_ok (request_line_of token pre path version) = true →
  line_ok (request_line_of token EmptyString path version) = true.
Proof.
  assert (∀ x, token +:+ String " " x = (token +:+ " ") +:+ x) as E
    by (intros x; by rewrite app_assoc_str).
  unfold request_line_of. rewrite app_nil.
  rewrite (E (pre +:+ _)), (E (path +:+ _)). apply line_ok_without.
Qed.

(** C5, counterexample: with a scheme in front of the host, the first [/]
    after the method is the one of the scheme, and the path extracted is not
    the one extracted without the prefix. *)
Lemma request_line_scheme_prefix :
  fst (process_request_line (fresh_request CONNECT conn)
         (conn_world ("GET http://example.com/index.html HTTP/1.1" +:+ CRLF)))
  = Returns (Request conn GET "//example.com/index.html" EmptyString [])
  ∧ fst (process_request_line (fresh_request CONNECT conn)
           (conn_world ("GET /index.html HTTP/1.1" +:+ CRLF)))
    = Returns (Request conn GET "/index.html" EmptyString []).
Proof. split; vm_compute; reflexivity. Qed.

(** C5, as amended: for every request line
    [METHOD SP [prefix]/path SP HTTP/x.y CRLF] in which the prefix holds no
    [/] (a host with an optional port, as the comment on
    [process_request_line] has it: [method [host[:port]]path HTTP/1.x]), the
    parser stores the method the token names and the path exactly, and the
    result is the same whether or not the prefix is there. *)
Theorem request_line_method_and_path (r : request) (w : world) (fd : Z)
    (token pre path version rest : string) :
  fd_of (_worker r) w = Some fd →
  no_char " " token = true → no_char "/" pre = true →
  starts_with_slash path = true → no_char " " path = true →
  line_ok (request_line_of token pre path version) = true →
  let parsed := set_path path (store_method (lowercase token) r) in
  process_request_line r
    (with_rx fd (request_line_of token pre path version +:+ CRLF +:+ rest) w)
  = (Returns parsed, with_rx fd rest w)
  ∧ process_request_line r
      (with_rx fd (request_line_of token EmptyString path version +:+ CRLF +:+ rest) w)
    = (Returns parsed, with_rx fd rest w).
Proof.
  intros Hfd Htok Hpre Hslash Hpath Hok parsed. split.
  - by apply process_request_line_shape.
  - apply process_request_line_shape; try done.
    by apply line_ok_without_prefix in Hok.
Qed.

Lemma request_line_method_and_path_witness :
  process_request_line (fresh_request CONNECT conn)
    (with_rx 5 (request_line_of "GET" "example.com:8080" "/index.html" "HTTP/1.1"
                +:+ CRLF +:+ "Host: x") (conn_world EmptyString))
  = (Returns (Request conn GET "/index.html" EmptyString []),
     with_rx 5 "Host: x" (conn_world EmptyString))
  ∧ process_request_line (fresh_request CONNECT conn)
      (with_rx 5 (request_line_of "GET" EmptyString "/index.html" "HTTP/1.1"
                  +:+ CRLF +:+ "Host: x") (conn_world EmptyString))
    = (Returns (Request conn GET "/index.html" EmptyString []),
       with_rx 5 "Host: x" (conn_world EmptyString)).
Proof.
  exact (request_line_method_and_path (fresh_request CONNECT conn) (conn_world EmptyString) 5
           "GET" "example.com:8080" "/index.html" "HTTP/1.1" "Host: x"
           eq_refl eq_refl eq_refl eq_refl eq_refl eq_refl).
Defined.




(** ** The header map *)

Lemma no_case_compare_irrefl (k : string) : no_case_compare k k = false.
Proof.
  unfold no_case_compare, String.ltb.
  pose proof (String.compare_antisym (lowercase k) (lowercase k)) as H.
  destruct (lowercase k ?= lowercase k)%string; simpl in H; congruence.
Qed.

Lemma string_lt_trans (a b c : string) :
  (a ?= b)%string = Lt → (b ?= c)%string = Lt → (a ?= c)%string = Lt.
Proof.
  revert b c. induction a as [|x a IH]; intros [|y b] [|z c]; simpl; try done.
  unfold Ascii.compare.
  destruct (N.compare_spec (N_of_ascii x) (N_of_ascii y)) as [Exy|Hxy|Hxy];
    destruct (N.compare_spec (N_of_ascii y) (N_of_ascii z)) as [Eyz|Hyz|Hyz];
    destruct (N.compare_spec (N_of_ascii x) (N_of_ascii z)) as [Exz|Hxz|Hxz];
    try done; try lia.
  apply IH.
Qed.

Lemma no_case_compare_trans (a b c : string) :
  no_case_compare a b = true → no_case_compare b c = true →
  no_case_compare a c = true.
Proof.
  unfold no_case_compare, String.ltb.
  destruct (lowercase a ?= lowercase b)%string eqn:E1; try done.
  destruct (lowercase b ?= lowercase c)%string eqn:E2; try done.
  by rewrite (string_lt_trans _ _ _ E1 E2).
Qed.

(** Keys that the comparator does not order differ in case only. *)
Lemma no_case_compare_equiv (a b : string) :
  no_case_compare a b = false → no_case_compare b a = false →
  lowercase a = lowercase b.
Proof.
  unfold no_case_compare, String.ltb. intros H1 H2.
  apply String.compare_eq_iff.
  rewrite String.compare_antisym in H2.
  destruct (lowercase a ?= lowercase b)%string; simpl in *; done.
Qed.

(** Keys that differ in case only compare alike with every key. *)
Lemma no_case_compare_variant_l (k k' x : string) :
  lowercase k = lowercase k' → no_case_compare k x = no_case_compare k' x.
Proof. unfold no_case_compare. by intros ->. Qed.

Lemma no_case_compare_variant_r (k k' x : string) :
  lowercase k = lowercase k' → no_case_compare x k = no_case_compare x k'.
Proof. unfold no_case_compare. by intros ->. Qed.

Lemma map_find_variant (k k' : string) (m : header_map) :
  lowercase k = lowercase k' → map_find k m = map_find k' m.
Proof.
  intros E. induction m as [|[x v] m IH]; simpl; [done|].
  rewrite (no_case_compare_variant_l k k' x E), (no_case_compare_variant_r k k' x E).
  by rewrite IH.
Qed.

Lemma map_touch_found (k : string) (m : header_map) :
  is_Some (map_find k m) → map_touch k m = m.
Proof.
  induction m as [|[x v] m IH]; simpl.
  - by intros [? ?].
  - destruct (no_case_compare k x); [by intros [? ?]|].
    destruct (no_case_compare x k); [|done].
    intros H. by rewrite IH.
Qed.

(** Unfold one level of the map functions and decide the comparisons known. *)
Ltac map_step :=
  repeat (simpl;
          match goal with
          | |- context [no_case_compare ?k ?k] => rewrite (no_case_compare_irrefl k)
          | H : no_case_compare ?a ?b = _ |- context [no_case_compare ?a ?b] => rewrite H
          end);
  simpl.

Lemma map_find_assign (k v : string) (m : header_map) :
  map_find k (map_assign k v m) = Some v.
Proof.
  unfold map_assign. induction m as [|[x u] m IH]; [by map_step|].
  simpl. destruct (no_case_compare k x) eqn:E1; [by map_step|].
  destruct (no_case_compare x k) eqn:E2; by map_step.
Qed.

Lemma map_find_touch (k : string) (m : header_map) :
  is_Some (map_find k (map_touch k m)).
Proof.
  induction m as [|[x u] m IH]; [by map_step|].
  simpl. destruct (no_case_compare k x) eqn:E1; [by map_step|].
  destruct (no_case_compare x k) eqn:E2; by map_step.
Qed.

(** The order of the elements is kept by [operator[]] and by the assignment
    through it, and in a map in order every element is found under its key. *)
Lemma map_touch_keys (P : string → Prop) (k : string) (m : header_map) :
  P k → Forall (λ kv : string * string, P kv.1) m →
  Forall (λ kv : string * string, P kv.1) (map_touch k m).
Proof.
  intros Hk. induction m as [|[x u] m IH]; intros Hm; simpl.
  - by constructor.
  - apply Forall_cons in Hm as [Hx Hm].
    destruct (no_case_compare k x); [by repeat constructor|].
    destruct (no_case_compare x k); constructor; auto.
Qed.

Lemma map_put_keys (P : string → Prop) (k v : string) (m : header_map) :
  Forall (λ kv : string * string, P kv.1) m →
  Forall (λ kv : string * string, P kv.1) (map_put k v m).
Proof.
  induction m as [|[x u] m IH]; intros Hm; simpl; [done|].
  apply Forall_cons in Hm as [Hx Hm].
  destruct (no_case_compare k x); [by constructor|].
  destruct (no_case_compare x k); constructor; auto.
Qed.

Lemma map_touch_sorted (k : string) (m : header_map) :
  map_sorted m → map_sorted (map_touch k m).
Proof.
  induction m as [|[x u] m IH]; simpl.
  - intros _. split; [constructor | done].
  - intros [Hall Hs]. destruct (no_case_compare k x) eqn:E1.
    + simpl. split; [|done]. constructor; [done|].
      eapply Forall_impl; [exact Hall|]. intros kv Hkv. simpl in *.
      by apply (no_case_compare_trans k x).
    + destruct (no_case_compare x k) eqn:E2; simpl; [|done].
      split; [|by apply IH].
      by apply (map_touch_keys (λ y, no_case_compare x y = true)).
Qed.

Lemma map_put_sorted (k v : string) (m : header_map) :
  map_sorted m → map_sorted (map_put k v m).
Proof.
  induction m as [|[x u] m IH]; simpl; [done|].
  intros [Hall Hs]. destruct (no_case_compare k x); [done|].
  destruct (no_case_compare x k); simpl; [|done].
  split; [|by apply IH].
  by apply (map_put_keys (λ y, no_case_compare x y = true)).
Qed.

Lemma map_find_sorted (k v : string) (m : header_map) :
  map_sorted m → (k, v) ∈ m → map_find k m = Some v.
Proof.
  induction m as [|[x u] m IH]; intros Hs Hin.
  - by apply elem_of_nil in Hin.
  - destruct Hs as [Hall Hs]. apply elem_of_cons in Hin as [[= <- <-]|Hin].
    + simpl. by rewrite no_case_compare_irrefl.
    + assert (no_case_compare x k = true) as Hxk.
      { rewrite Forall_forall in Hall. exact (Hall (k, v) Hin). }
      assert (no_case_compare k x = false) as Hkx.
      { destruct (no_case_compare k x) eqn:E; [|done].
        pose proof (no_case_compare_trans _ _ _ E Hxk) as Hkk.
        by rewrite no_case_compare_irrefl in Hkk. }
      simpl. rewrite Hkx, Hxk. by apply IH.
Qed.

(** ** The header lines *)

Lemma deref_no_fd (s : socket) (w : world) :
  fd_of s w = None → deref (_fd s) w = (Fault, w).
Proof.
  unfold fd_of, deref. destruct (_fd s) as [l|]; simpl; [|done].
  by destruct (heap w !! l) as [[v n]|].
Qed.

Lemma pending_eq (s : socket) (w : world) (fd : Z) (q : string) :
  fd_of s w = Some fd → fds w !! fd = Some q → pending s w = q.
Proof. intros Hfd Hq. unfold pending. rewrite Hfd. simpl. by rewrite Hq. Qed.

(** A line that is not empty takes at least three bytes from the queue. *)
Lemma read_line_consumes (s : socket) (w w' : world) (l : string) :
  read_line s w = (Returns l, w') → (0 < String.length l)%nat →
  (String.length (pending s w') + 3 ≤ String.length (pending s w))%nat.
Proof.
  destruct (fd_of s w) as [fd|] eqn:Hfd.
  2:{ unfold read_line, read_block.
      rewrite (bind_fault _ _ _ _ (bind_fault _ _ _ _ (deref_no_fd _ _ Hfd))). done. }
  destruct (fds w !! fd) as [q|] eqn:Hq.
  2:{ unfold read_line, read_block.
      rewrite (bind_throws _ _ w (set_errno EBADF w)
                 (socket_error ("Error reading from connected host: " +:+ Z_to_string EBADF)));
        [done|].
      rewrite (bind_returns _ _ _ _ _ (deref_fd_of _ _ _ Hfd)).
      unfold mbind, M_bind, sys_recv. by rewrite Hq. }
  unfold read_line.
  rewrite (bind_returns _ _ _ _ _ (read_block_peek _ _ _ _ BUFFER_SIZE Hfd Hq)).
  destruct (0 <? String.length (str_take BUFFER_SIZE q))%nat.
  2:{ intros [= <- <-]. simpl. lia. }
  destruct (scan_eol (str_take BUFFER_SIZE q) 0 0) as [p found].
  destruct (found <? 2)%nat; [done|].
  rewrite (bind_returns _ _ _ _ _ (read_block_consume _ _ _ _ p Hfd Hq)).
  destruct (Nat.ltb_spec (String.length (str_take p q)) 2) as [|Hp]; [done|].
  intros [= <- <-]. rewrite (pending_with_rx _ _ _ _ Hfd), (pending_eq _ _ _ _ Hfd Hq).
  rewrite !length_str_take, length_str_drop. rewrite length_str_take in Hp. lia.
Qed.

Section HeaderLines.

Variable crend_deref : string → ascii.

(** On the finite stream of a world the loop ends: every iteration but the
    last takes bytes from the queue. *)
Lemma header_loop_terminates (fuel : nat) (s : socket) (header_line : string)
    (st : string * header_map) (w : world) :
  (String.length (pending s w) < fuel)%nat →
  is_Some (header_loop crend_deref fuel s header_line st w).
Proof.
  revert header_line st w. induction fuel as [|fuel IH]; intros line st w Hlt; [lia|].
  simpl. destruct (0 <? String.length line)%nat; [|eauto].
  destruct (read_line s w) as [[next|e|e|] w'] eqn:E; [|eauto..].
  destruct next as [|c next].
  - destruct fuel; simpl; eauto.
  - apply IH. apply read_line_consumes in E; [lia | simpl; lia].
Qed.

Lemma read_line_block_end (s : socket) (w : world) (fd : Z) (blank : bool)
    (rest : string) :
  fd_of s w = Some fd →
  read_line s (with_rx fd (block_end blank rest) w)
  = (Returns EmptyString, with_rx fd (after_block blank rest) w).
Proof.
  intros Hfd. destruct blank; simpl.
  - rewrite <- (with_rx_twice fd (CRLF +:+ rest) rest w).
    apply (read_line_pending s _ fd EmptyString rest); [done | apply fds_with_rx | done].
  - apply (read_line_eof s _ fd); [done | apply fds_with_rx].
Qed.

Lemma length_encode_lines (ls : list string) :
  forallb carried ls = true → (length ls ≤ String.length (encode_lines ls))%nat.
Proof.
  induction ls as [|l ls IH]; simpl; [lia|].
  intros [Hl Hls]%andb_true_iff. rewrite !length_app.
  change (String.length CRLF) with 2%nat. specialize (IH Hls). lia.
Qed.

Lemma header_loop_lines (ls : list string) (fuel : nat) (s : socket) (fd : Z)
    (line : string) (st : string * header_map) (w : world) (blank : bool)
    (rest : string) :
  fd_of s w = Some fd → carried line = true → forallb carried ls = true →
  (length ls < fuel)%nat →
  header_loop crend_deref fuel s line st
    (with_rx fd (encode_lines ls +:+ block_end blank rest) w)
  = Some (Returns (snd (run_lines crend_deref (line :: ls) st)),
          with_rx fd (after_block blank rest) w).
Proof.
  intros Hfd. revert fuel line st.
  induction ls as [|l ls IH]; intros fuel line st Hline Hls Hfuel;
    (destruct fuel as [|fuel]; [simpl in Hfuel; lia|]);
    pose proof Hline as [_ Hlen]%andb_true_iff; simpl header_loop; rewrite Hlen.
  - simpl encode_lines. rewrite app_nil.
    rewrite (read_line_block_end s w fd blank rest Hfd).
    destruct fuel; reflexivity.
  - simpl in Hls. apply andb_true_iff in Hls as [Hl Hls].
    simpl encode_lines. rewrite !app_assoc_str.
    assert (line_ok l = true) as Hok by (by apply andb_true_iff in Hl as [? _]).
    assert (read_line s (with_rx fd (l +:+ CRLF +:+ encode_lines ls +:+ block_end blank rest) w)
            = (Returns l, with_rx fd (encode_lines ls +:+ block_end blank rest) w)) as ->.
    { rewrite <- (with_rx_twice fd (l +:+ CRLF +:+ encode_lines ls +:+ block_end blank rest)
                    (encode_lines ls +:+ block_end blank rest) w).
      apply read_line_pending; [done | apply fds_with_rx | done]. }
    rewrite IH; [done | done | done | simpl in Hfuel; lia].
Qed.

(** [process_header_lines] on a block of lines, ended by the blank line or by
    the end of the stream: it returns, with the map the loop body builds from
    the lines in order, and leaves what follows the block in the queue. *)
Lemma process_header_lines_block (r : request) (w : world) (fd : Z)
    (ls : list string) (blank : bool) (rest : string) :
  fd_of (_worker r) w = Some fd → forallb carried ls = true →
  process_header_lines crend_deref r
    (with_rx fd (encode_lines ls +:+ block_end blank rest) w)
  = (Returns (set_header (snd (run_lines crend_deref ls (EmptyString, _header r))) r),
     with_rx fd (after_block blank rest) w).
Proof.
  intros Hfd Hls. unfold process_header_lines. destruct ls as [|l ls].
  - simpl encode_lines. rewrite app_nil.
    rewrite (bind_returns _ _ _ _ _ (read_line_block_end _ w fd blank rest Hfd)).
    reflexivity.
  - simpl in Hls. apply andb_true_iff in Hls as [Hl Hls].
    assert (line_ok l = true) as Hok by (by apply andb_true_iff in Hl as [? _]).
    simpl encode_lines. rewrite !app_assoc_str.
    set (q := encode_lines ls +:+ block_end blank rest).
    assert (read_line (_worker r) (with_rx fd (l +:+ CRLF +:+ q) w)
            = (Returns l, with_rx fd q w)) as Hread.
    { rewrite <- (with_rx_twice fd (l +:+ CRLF +:+ q) q w).
      apply read_line_pending; [done | apply fds_with_rx | done]. }
    rewrite (bind_returns _ _ _ _ _ Hread). unfold header_lines_from.
    rewrite (pending_with_rx _ _ _ _ Hfd). unfold q at 2.
    rewrite header_loop_lines; [done | done | done | done |].
    unfold q. rewrite length_app. pose proof (length_encode_lines ls Hls). lia.
Qed.

Lemma continuation_map (name : string) (hdr : header_map) :
  tracked (name, hdr) → (continuation crend_deref name hdr).2 = hdr.
Proof.
  intros [E|Hfound]; simpl in *; unfold continuation.
  - by rewrite E.
  - destruct (0 <? String.length name)%nat; [|done].
    simpl. by apply map_touch_found.
Qed.

Lemma header_line_body_tracked (l : string) (st : string * header_map) :
  tracked st → tracked (header_line_body crend_deref l st).
Proof.
  destruct st as [name hdr]. intros Ht. unfold header_line_body.
  pose proof (continuation_map name hdr Ht) as Hmap.
  destruct (continuation crend_deref name hdr) as [continued hdr'].
  simpl in Hmap. subst hdr'.
  destruct continued.
  - right. simpl. apply (mk_is_Some _ _ (map_find_assign _ _ _)).
  - destruct (advance_until ":" (advance_while " " l)) as [passed [|c itr]]; [done|].
    right. simpl. apply (mk_is_Some _ _ (map_find_assign _ _ _)).
Qed.

Lemma run_lines_tracked (ls : list string) (st : string * header_map) :
  tracked st → tracked (run_lines crend_deref ls st).
Proof.
  revert st. induction ls as [|l ls IH]; intros st Ht; [done|].
  apply IH. by apply header_line_body_tracked.
Qed.

Lemma header_line_body_sorted (l : string) (st : string * header_map) :
  map_sorted st.2 → map_sorted (header_line_body crend_deref l st).2.
Proof.
  destruct st as [name hdr]. simpl. intros Hs. unfold header_line_body.
  assert (map_sorted (continuation crend_deref name hdr).2) as Hc.
  { unfold continuation. destruct (0 <? String.length name)%nat; [|done].
    simpl. by apply map_touch_sorted. }
  destruct (continuation crend_deref name hdr) as [continued hdr']. simpl in Hc.
  destruct continued.
  - simpl. unfold map_assign. by repeat (apply map_put_sorted || apply map_touch_sorted).
  - destruct (advance_until ":" (advance_while " " l)) as [passed [|c itr]]; [done|].
    simpl. unfold map_assign. by repeat (apply map_put_sorted || apply map_touch_sorted).
Qed.

Lemma run_lines_sorted (ls : list string) (st : string * header_map) :
  map_sorted st.2 → map_sorted (run_lines crend_deref ls st).2.
Proof.
  revert st. induction ls as [|l ls IH]; intros st Hs; [done|].
  apply IH. by apply header_line_body_sorted.
Qed.

Lemma advance_until_absent (c : ascii) (s : string) :
  no_char c s = true → advance_until c s = (s, EmptyString).
Proof.
  induction s as [|a s IH]; simpl; [done|].
  intros [Ha Hs]%andb_true_iff. apply negb_true_iff in Ha. rewrite Ha.
  by rewrite IH.
Qed.

(** A line without a colon, met when the continuation test is false, changes
    neither the map nor the current name. *)
Lemma header_line_body_ignored (l : string) (st : string * header_map) :
  tracked st → (continuation crend_deref st.1 st.2).1 = false →
  no_char ":" (advance_while " " l) = true →
  header_line_body crend_deref l st = st.
Proof.
  destruct st as [name hdr]. simpl. intros Ht Hc Hl. unfold header_line_body.
  pose proof (continuation_map name hdr Ht) as Hmap.
  destruct (continuation crend_deref name hdr) as [continued hdr']. simpl in *.
  subst. by rewrite advance_until_absent.
Qed.

Lemma run_lines_app (ls1 ls2 : list string) (st : string * header_map) :
  run_lines crend_deref (ls1 ++ ls2)%list st
  = run_lines crend_deref ls2 (run_lines crend_deref ls1 st).
Proof. apply fold_left_app. Qed.

(** C9, as amended: for every header block whose lines [read_line] delivers
    (lines without CR and LF, terminated by CRLF within the 4096-byte window,
    the block ended by the blank line or by the end of the stream), header
    parsing does not fail: [process_header_lines] returns.  With a line [bad]
    that holds no colon and is met when the continuation test is false, it
    returns exactly what it returns for the block without [bad]: the line
    stores nothing, and the lines after it are parsed as they would be
    without it. *)
Theorem colonless_line_ignored (r : request) (w : world) (fd : Z) (blank : bool)
    (rest : string) :
  fd_of (_worker r) w = Some fd →
  (∀ ls : list string,
     forallb carried ls = true →
     ∃ hdr : header_map,
       process_header_lines crend_deref r
         (with_rx fd (encode_lines ls +:+ block_end blank rest) w)
       = (Returns (set_header hdr r), with_rx fd (after_block blank rest) w))
  ∧ (∀ (ls1 : list string) (bad : string) (ls2 : list string),
       forallb carried (ls1 ++ bad :: ls2)%list = true →
       no_char ":" (advance_while " " bad) = true →
       (continuation crend_deref (run_lines crend_deref ls1 (EmptyString, _header r)).1
                     (run_lines crend_deref ls1 (EmptyString, _header r)).2).1 = false →
       process_header_lines crend_deref r
         (with_rx fd (encode_lines (ls1 ++ bad :: ls2)%list +:+ block_end blank rest) w)
       = process_header_lines crend_deref r
           (with_rx fd (encode_lines (ls1 ++ ls2)%list +:+ block_end blank rest) w)).
Proof.
  intros Hfd. split.
  - intros ls Hls. eexists. by apply process_header_lines_block.
  - intros ls1 bad ls2 Hls Hbad Hcont.
    assert (forallb carried (ls1 ++ ls2)%list = true) as Hls'.
    { rewrite forallb_app in Hls |- *. simpl in Hls.
      apply andb_true_iff in Hls as [H1 [_ H2]%andb_true_iff]. by rewrite H1, H2. }
    rewrite !process_header_lines_block by done.
    do 3 f_equal. rewrite !run_lines_app. simpl.
    rewrite header_line_body_ignored; [done | | done | done].
    apply run_lines_tracked. by left.
Qed.

Lemma store_method_worker (m : string) (r : request) :
  _worker (store_method m r) = _worker r ∧ _header (store_method m r) = _header r
  ∧ _path (store_method m r) = _path r ∧ _route (store_method m r) = _route r.
Proof. unfold store_method. repeat case_match; done. Qed.

(** C10: when the peer has closed and nothing is pending, [read_line] returns
    the empty string and throws nothing; a connection closed after some header
    lines is parsed like one that sent the blank line: the construction of the
    request completes, with the headers of the lines received. *)
Theorem closed_connection_ends_headers (garbage : method) (worker : socket) (w : world)
    (fd : Z)
    (token pre path version : string) (ls : list string) (rest : string) :
  fd_of worker w = Some fd →
  no_char " " token = true → no_char "/" pre = true →
  starts_with_slash path = true → no_char " " path = true →
  line_ok (request_line_of token pre path version) = true →
  forallb carried ls = true →
  let request_line := request_line_of token pre path version in
  let parsed :=
    set_header (run_lines crend_deref ls (EmptyString, [])).2
      (set_path path (store_method (lowercase token) (fresh_request garbage worker))) in
  read_line worker (with_rx fd EmptyString w) = (Returns EmptyString, with_rx fd EmptyString w)
  ∧ request_ctor crend_deref garbage worker
      (with_rx fd (request_line +:+ CRLF +:+ encode_lines ls) w)
    = (Returns parsed, with_rx fd EmptyString w)
  ∧ request_ctor crend_deref garbage worker
      (with_rx fd (request_line +:+ CRLF +:+ encode_lines ls +:+ CRLF +:+ rest) w)
    = (Returns parsed, with_rx fd rest w).
Proof.
  intros Hfd Htok Hpre Hslash Hpath Hok Hls request_line parsed.
  assert (∀ blank,
    request_ctor crend_deref garbage worker
      (with_rx fd (request_line +:+ CRLF +:+ encode_lines ls +:+ block_end blank rest) w)
    = (Returns parsed, with_rx fd (after_block blank rest) w)) as Hctor.
  { intros blank. unfold request_ctor.
    rewrite (bind_returns _ _ _ _ _
               (process_request_line_shape (fresh_request garbage worker) w fd token pre path
                  version _ Hfd Htok Hpre Hslash Hpath Hok)).
    destruct (store_method_worker (lowercase token) (fresh_request garbage worker))
      as (Hw & Hh & _).
    rewrite process_header_lines_block; [| by simpl; rewrite Hw | done].
    simpl _header. by rewrite Hh. }
  split; [apply (read_line_eof worker _ fd); [done | apply fds_with_rx]|].
  split.
  - specialize (Hctor false). simpl in Hctor. by rewrite app_empty_r in Hctor.
  - exact (Hctor true).
Qed.

(** C8: for every header block ended by the blank line, lookup in the map
    the parser builds is case-insensitive on the key.  Every header the
    request holds after the block is found by [header] under its name and
    under every case variant of the name, with the value stored for it; and
    two names that differ in case only get the same answer from [header],
    stored or not.  (A [std::map] keeps its elements in the order of its
    comparator; so does the map the request starts from.) *)
Theorem header_lookup_ignores_case (r : request) (w : world) (fd : Z)
    (ls : list string) (rest : string) :
  fd_of (_worker r) w = Some fd → forallb carried ls = true →
  map_sorted (_header r) →
  let req := set_header (run_lines crend_deref ls (EmptyString, _header r)).2 r in
  process_header_lines crend_deref r (with_rx fd (encode_lines ls +:+ CRLF +:+ rest) w)
  = (Returns req, with_rx fd rest w)
  ∧ (∀ name value variant : string,
       (name, value) ∈ _header req → lowercase variant = lowercase name →
       header variant req = Returns value)
  ∧ (∀ name name' : string,
       lowercase name = lowercase name' → header name req = header name' req).
Proof.
  intros Hfd Hls Hsorted req. split; [|split].
  - exact (process_header_lines_block r w fd ls true rest Hfd Hls).
  - intros name value variant Hin Hcase. unfold header.
    rewrite (map_find_variant variant name _ Hcase).
    rewrite (map_find_sorted name value); [done | | done].
    subst req. simpl. by apply run_lines_sorted.
  - intros name name' Hcase. unfold header.
    by rewrite (map_find_variant name name' _ Hcase).
Qed.

End HeaderLines.

(** On the finite stream of a world the fuel [header_lines_from] gives the
    loop is enough. *)
Lemma header_lines_from_fuel (crend_deref : string → ascii) (r : request)
    (header_line : string) (w : world) :
  is_Some (header_loop crend_deref (S (String.length (pending (_worker r) w)))
             (_worker r) header_line (EmptyString, _header r) w).
Proof. apply header_loop_terminates. lia. Qed.

(** Whatever [read_block] and [read_line] throw is a [socket_error]. *)
Lemma read_block_throws (s : socket) (n : nat) (peek : bool) (w w' : world) (e : exn) :
  read_block s n peek w = (Throws e, w') → ∃ what, e = socket_error what.
Proof.
  unfold read_block, mbind, M_bind, deref, sys_recv, get_errno, throw, mret, M_ret.
  intros Hthrow. repeat case_match; simplify_eq; eauto.
Qed.

Lemma read_line_throws (s : socket) (w w' : world) (e : exn) :
  read_line s w = (Throws e, w') → ∃ what, e = socket_error what.
Proof.
  unfold read_line, mbind, M_bind, throw, fault, mret, M_ret.
  intros Hthrow. repeat case_match; simplify_eq; eauto using read_block_throws.
Qed.

Lemma header_loop_throws (crend_deref : string → ascii) (fuel : nat) (s : socket)
    (line : string) (st : string * header_map) (w w' : world) (e : exn) :
  header_loop crend_deref fuel s line st w = Some (Throws e, w') →
  ∃ what, e = socket_error what.
Proof.
  revert line st w. induction fuel as [|fuel IH]; intros line st w; simpl.
  - case_match; [done|]. intros; simplify_eq.
  - case_match; [|intros; simplify_eq].
    destruct (read_line s w) as [[next|e'|e'|] w1] eqn:E; intros Hthrow; simplify_eq;
      eauto using read_line_throws.
Qed.

(** X17: the header loop raises nothing of its own: an exception that leaves
    [process_header_lines] is a [socket_error] of [read_line], never a
    [request::error]. *)
Lemma process_header_lines_throws (crend_deref : string → ascii) (r : request)
    (w w' : world) (e : exn) :
  process_header_lines crend_deref r w = (Throws e, w') →
  ∃ what, e = socket_error what.
Proof.
  unfold process_header_lines, mbind, M_bind, header_lines_from.
  destruct (read_line (_worker r) w) as [[line|e'|e'|] w1] eqn:E; intros Hthrow; simplify_eq;
    eauto using read_line_throws.
  repeat case_match; simplify_eq; eauto using header_loop_throws.
Qed.

(** ** The parser on concrete connections *)

Lemma run_lines_folded (crend_deref : string → ascii) :
  (run_lines crend_deref ["X: a,"; "  b"] (EmptyString, [])).2
  = [("X", if Ascii.eqb (crend_deref "a,") "," then "a, b" else "a,")].
Proof.
  unfold run_lines. simpl fold_left.
  change (header_line_body crend_deref "X: a," (EmptyString, [])) with ("X", [("X", "a,")]).
  unfold header_line_body, continuation.
  change (map_index "X" [("X", "a,")]) with ("a,", [("X", "a,")]).
  change (0 <? String.length "X")%nat with true. cbv iota beta.
  destruct (Ascii.eqb (crend_deref "a,") ","); reflexivity.
Qed.

(** C3 (the code departs from the specification): the continuation test does not look
    at the last character of the stored value.  For the block [X: a,] CRLF
    [  b] CRLF the value stored for [X] is decided by the byte in front of the
    buffer of ["a,"]: it is ["a, b"], the value the block [X: a, b] CRLF
    gives, only if that byte happens to be a comma; otherwise the second line
    is dropped as a line without a colon and the value stays ["a,"]. *)
Theorem folded_value_decided_outside_the_string (crend_deref : string → ascii)
    (garbage : method) :
  ∃ folded single : request,
    process_header_lines crend_deref (fresh_request garbage conn)
      (with_rx 5 (encode_lines ["X: a,"; "  b"] +:+ CRLF +:+ EmptyString) (conn_world EmptyString))
    = (Returns folded, with_rx 5 EmptyString (conn_world EmptyString))
    ∧ header "X" folded
      = Returns (if Ascii.eqb (crend_deref "a,") "," then "a, b" else "a,")
    ∧ process_header_lines crend_deref (fresh_request garbage conn)
        (with_rx 5 (encode_lines ["X: a, b"] +:+ CRLF +:+ EmptyString) (conn_world EmptyString))
      = (Returns single, with_rx 5 EmptyString (conn_world EmptyString))
    ∧ header "X" single = Returns "a, b".
Proof.
  eexists _, _. split; [|split; [|split]].
  - apply (process_header_lines_block crend_deref (fresh_request garbage conn)
             (conn_world EmptyString) 5 ["X: a,"; "  b"] true EmptyString); reflexivity.
  - unfold header, set_header.
    change (_header (Request ?a ?b ?c ?d ?h)) with h.
    change (_header (fresh_request garbage conn)) with (@nil (string * string)).
    rewrite run_lines_folded.
    destruct (Ascii.eqb (crend_deref "a,") ","); reflexivity.
  - apply (process_header_lines_block crend_deref (fresh_request garbage conn)
             (conn_world EmptyString) 5 ["X: a, b"] true EmptyString); reflexivity.
  - reflexivity.
Qed.

Lemma header_lookup_ignores_case_witness :
  process_header_lines zero_before (fresh_request CONNECT conn)
    (with_rx 5 ("Host: x" +:+ CRLF +:+ CRLF +:+ "body") (conn_world EmptyString))
  = (Returns (Request conn CONNECT EmptyString EmptyString [("Host", "x")]),
     with_rx 5 "body" (conn_world EmptyString))
  ∧ header "Host" (Request conn CONNECT EmptyString EmptyString [("Host", "x")])
    = Returns "x"
  ∧ header "host" (Request conn CONNECT EmptyString EmptyString [("Host", "x")])
    = Returns "x"
  ∧ header "HOST" (Request conn CONNECT EmptyString EmptyString [("Host", "x")])
    = Returns "x".
Proof.
  destruct (header_lookup_ignores_case zero_before (fresh_request CONNECT conn)
              (conn_world EmptyString) 5 ["Host: x"] "body" eq_refl eq_refl I)
    as (Hrun & Hstored & _).
  split; [exact Hrun|].
  repeat split; apply (Hstored "Host" "x"); (apply elem_of_cons; by left) || reflexivity.
Defined.

(** C9, counterexample: a header block with a line that has no terminator
    within the window of [read_line]: [process_header_lines] throws the
    [socket_error] of [read_line]. *)
Lemma long_header_line_fails :
  fst (process_header_lines zero_before (fresh_request CONNECT conn)
         (conn_world (long_header_line +:+ CRLF +:+ CRLF)))
  = Throws (socket_error "Line not found").
Proof. vm_compute. reflexivity. Qed.

Lemma colonless_line_ignored_witness :
  process_header_lines zero_before (fresh_request CONNECT conn)
    (with_rx 5 (encode_lines ["Host: x"; "no colon here"; "Accept: y"]
                +:+ block_end true "body") (conn_world EmptyString))
  = process_header_lines zero_before (fresh_request CONNECT conn)
      (with_rx 5 (encode_lines ["Host: x"; "Accept: y"]
                  +:+ block_end true "body") (conn_world EmptyString))
  ∧ process_header_lines zero_before (fresh_request CONNECT conn)
      (with_rx 5 (encode_lines ["Host: x"; "Accept: y"]
                  +:+ block_end true "body") (conn_world EmptyString))
    = (Returns (Request conn CONNECT EmptyString EmptyString
                  [("Accept", "y"); ("Host", "x")]),
       with_rx 5 "body" (conn_world EmptyString)).
Proof.
  split; [|vm_compute; reflexivity].
  exact (proj2 (colonless_line_ignored zero_before (fresh_request CONNECT conn)
                  (conn_world EmptyString) 5 true "body" eq_refl)
           ["Host: x"] "no colon here" ["Accept: y"] eq_refl eq_refl eq_refl).
Defined.

Lemma closed_connection_ends_headers_witness :
  request_ctor zero_before CONNECT conn
    (with_rx 5 (request_line_of "GET" EmptyString "/hello" "HTTP/1.1" +:+ CRLF
                +:+ encode_lines ["Host: x"; "Accept: y"]) (conn_world EmptyString))
  = (Returns (Request conn GET "/hello" EmptyString [("Accept", "y"); ("Host", "x")]),
     with_rx 5 EmptyString (conn_world EmptyString)).
Proof.
  exact (proj1 (proj2 (closed_connection_ends_headers zero_before CONNECT conn
                         (conn_world EmptyString) 5 "GET" EmptyString "/hello" "HTTP/1.1"
                         ["Host: x"; "Accept: y"] EmptyString
                         eq_refl eq_refl eq_refl eq_refl eq_refl eq_refl eq_refl))).
Defined.

(** * Further properties of the sockets *)

(** ** Blocks *)

Lemma str_take_add (n m : nat) (q : string) :
  str_take (n + m) q = str_take n q +:+ str_take m (str_drop n q).
Proof.
  revert q. induction n as [|n IH]; intros q.
  - change (0 + m)%nat with m. by rewrite str_take_0.
  - destruct q as [|c q].
    + by rewrite !str_take_empty.
    + change (S n + m)%nat with (S (n + m)). simpl. by rewrite IH.
Qed.

Lemma str_drop_add (n m : nat) (q : string) :
  str_drop (n + m) q = str_drop m (str_drop n q).
Proof.
  revert q. induction n as [|n IH]; intros q; [done|].
  destruct q as [|c q]; simpl; [by destruct m | apply IH].
Qed.

Lemma str_take_drop (n : nat) (q : string) : str_take n q +:+ str_drop n q = q.
Proof.
  revert q. induction n as [|n IH]; intros q.
  - by rewrite str_take_0.
  - destruct q as [|c q]; simpl; [done|]. by rewrite app_cons, IH.
Qed.

(** X1: a peek does not take anything: the read that follows a peek of the
    same length returns the same count and the same bytes, and only the read
    removes them from the queue. *)
Theorem peek_then_read (s : socket) (w : world) (fd : Z) (q : string) (n : nat) :
  fd_of s w = Some fd → fds w !! fd = Some q →
  (a ← read_block s n true; b ← read_block s n false; mret (a, b)) w
  = (Returns ((String.length (str_take n q), str_take n q),
              (String.length (str_take n q), str_take n q)),
     with_rx fd (str_drop n q) w).
Proof.
  intros Hfd Hq.
  rewrite (bind_returns _ _ _ _ _ (read_block_peek _ _ _ _ n Hfd Hq)).
  by rewrite (bind_returns _ _ _ _ _ (read_block_consume _ _ _ _ n Hfd Hq)).
Qed.

Lemma peek_then_read_witness :
  (a ← read_block conn 4 true; b ← read_block conn 4 false; mret (a, b))
    (conn_world "GET / HTTP/1.1")
  = (Returns ((4%nat, "GET "), (4%nat, "GET ")),
     with_rx 5 "/ HTTP/1.1" (conn_world "GET / HTTP/1.1")).
Proof.
  exact (peek_then_read conn (conn_world "GET / HTTP/1.1") 5 "GET / HTTP/1.1" 4
           eq_refl eq_refl).
Defined.

(** X2: the stream has no block boundaries: reading [n] bytes and then [m]
    bytes gives, end to end, the bytes of one read of [n + m], and leaves the
    same queue. *)
Theorem read_block_split (s : socket) (w : world) (fd : Z) (q : string) (n m : nat) :
  fd_of s w = Some fd → fds w !! fd = Some q →
  (a ← read_block s n false; b ← read_block s m false; mret (a.2 +:+ b.2)) w
  = (c ← read_block s (n + m) false; mret c.2) w.
Proof.
  intros Hfd Hq.
  rewrite (bind_returns _ _ _ _ _ (read_block_consume _ _ _ _ n Hfd Hq)).
  rewrite (bind_returns _ _ _ _ _
             (read_block_consume s (with_rx fd (str_drop n q) w) fd (str_drop n q) m
                Hfd (fds_with_rx _ _ _))).
  rewrite (bind_returns _ _ _ _ _ (read_block_consume _ _ _ _ (n + m) Hfd Hq)).
  unfold mret, M_ret. simpl. by rewrite with_rx_twice, str_take_add, str_drop_add.
Qed.

Lemma read_block_split_witness :
  (a ← read_block conn 3 false; b ← read_block conn 4 false; mret (a.2 +:+ b.2))
    (conn_world "GET / HTTP/1.1")
  = (c ← read_block conn (3 + 4) false; mret c.2) (conn_world "GET / HTTP/1.1").
Proof.
  exact (read_block_split conn (conn_world "GET / HTTP/1.1") 5 "GET / HTTP/1.1" 3 4
           eq_refl eq_refl).
Defined.

(** ** Lines *)

Lemma scan_eol_count (rest : string) (p f : nat) :
  (f + count_eol rest < 2)%nat →
  (scan_eol rest p f).2 = (f + count_eol rest)%nat.
Proof.
  revert p f. induction rest as [|c rest IH]; intros p f H; simpl in *; [lia|].
  destruct (Nat.ltb_spec f 2) as [_|Hf]; [|lia].
  destruct (is_eol c); rewrite IH; lia.
Qed.

Lemma scan_eol_bounds (rest : string) (p f p' f' : nat) :
  scan_eol rest p f = (p', f') → (f ≤ 2)%nat →
  (p ≤ p' ≤ p + String.length rest)%nat ∧ (f ≤ f' ≤ 2)%nat ∧ (f' - f ≤ p' - p)%nat.
Proof.
  revert p f. induction rest as [|c rest IH]; intros p f H Hf; simpl in *.
  - injection H as <- <-. lia.
  - destruct (Nat.ltb_spec f 2) as [Hlt|_].
    + apply IH in H; [|destruct (is_eol c); lia]. destruct (is_eol c); lia.
    + injection H as <- <-. lia.
Qed.

Lemma BUFFER_SIZE_pos : (0 < BUFFER_SIZE)%nat.
Proof. apply Nat.ltb_lt. reflexivity. Qed.

(** X3: when the window of [read_line] holds bytes but fewer than two of them
    are CR or LF, [read_line] throws "Line not found" and takes nothing: the
    bytes stay in the queue. *)
Theorem read_line_not_found (s : socket) (w : world) (fd : Z) (q : string) :
  fd_of s w = Some fd → fds w !! fd = Some q →
  (0 < String.length q)%nat →
  (count_eol (str_take BUFFER_SIZE q) < 2)%nat →
  read_line s w = (Throws (socket_error "Line not found"), w).
Proof.
  intros Hfd Hq Hlen Hcount. unfold read_line.
  pose proof BUFFER_SIZE_pos as Hpos. remember BUFFER_SIZE as n eqn:Hn. clear Hn.
  rewrite (bind_returns _ _ _ _ _ (read_block_peek _ _ _ _ n Hfd Hq)).
  destruct (Nat.ltb_spec 0 (String.length (str_take n q))) as [_|H0].
  2:{ rewrite length_str_take in H0. lia. }
  pose proof (scan_eol_count (str_take n q) 0 0 Hcount) as Hfound.
  destruct (scan_eol (str_take n q) 0 0) as [p found]. simpl in Hfound. subst found.
  destruct (Nat.ltb_spec (count_eol (str_take n q)) 2); [done | lia].
Qed.

Lemma read_line_not_found_witness :
  read_line conn (conn_world "GET / HTTP/1.1")
  = (Throws (socket_error "Line not found"), conn_world "GET / HTTP/1.1").
Proof.
  apply (read_line_not_found conn (conn_world "GET / HTTP/1.1") 5 "GET / HTTP/1.1");
    [reflexivity | reflexivity | vm_compute; lia | vm_compute; lia].
Defined.

(** X4: [read_line] loses no byte but the two it strips.  Whenever it
    returns, either nothing was pending (the line is empty and nothing
    changes), or the bytes that were pending are the line returned, two
    bytes, and the bytes that are pending afterwards, in this order. *)
Theorem read_line_accounts_for_bytes (s : socket) (w w' : world) (l : string) :
  read_line s w = (Returns l, w') →
  (pending s w = EmptyString ∧ l = EmptyString ∧ w' = w)
  ∨ ∃ t : string,
      String.length t = 2%nat ∧ pending s w = l +:+ t +:+ pending s w'.
Proof.
  destruct (fd_of s w) as [fd|] eqn:Hfd.
  2:{ unfold read_line, read_block.
      rewrite (bind_fault _ _ _ _ (bind_fault _ _ _ _ (deref_no_fd _ _ Hfd))). done. }
  destruct (fds w !! fd) as [q|] eqn:Hq.
  2:{ unfold read_line, read_block.
      rewrite (bind_throws _ _ w (set_errno EBADF w)
                 (socket_error ("Error reading from connected host: " +:+ Z_to_string EBADF)));
        [done|].
      rewrite (bind_returns _ _ _ _ _ (deref_fd_of _ _ _ Hfd)).
      unfold mbind, M_bind, sys_recv. by rewrite Hq. }
  unfold read_line. rewrite (pending_eq _ _ _ _ Hfd Hq).
  pose proof BUFFER_SIZE_pos as Hpos. remember BUFFER_SIZE as n eqn:Hn. clear Hn.
  rewrite (bind_returns _ _ _ _ _ (read_block_peek _ _ _ _ n Hfd Hq)).
  destruct (Nat.ltb_spec 0 (String.length (str_take n q))) as [_|H0].
  2:{ intros [= <- <-]. left. rewrite length_str_take in H0.
      destruct q; [done | simpl in H0; lia]. }
  destruct (scan_eol (str_take n q) 0 0) as [p found] eqn:Hscan.
  apply scan_eol_bounds in Hscan as (Hp & Hf & Hfp); [|lia].
  destruct (Nat.ltb_spec found 2) as [|Hfound]; [done|].
  rewrite (bind_returns _ _ _ _ _ (read_block_consume _ _ _ _ p Hfd Hq)).
  rewrite length_str_take in Hp.
  assert (String.length (str_take p q) = p) as Hlen by (rewrite length_str_take; lia).
  rewrite Hlen. destruct (Nat.ltb_spec p 2) as [|_]; [lia|].
  intros [= <- <-]. right. rewrite (pending_with_rx _ _ _ _ Hfd).
  exists (str_drop (p - 2) (str_take p q)). split.
  - rewrite length_str_drop, Hlen. lia.
  - rewrite <- app_assoc_str, str_take_drop. by rewrite str_take_drop.
Qed.

Lemma read_line_accounts_for_bytes_witness :
  (pending conn (conn_world ("Host: x" +:+ CRLF +:+ "Accept: y")) = EmptyString
   ∧ "Host: x" = EmptyString
   ∧ conn_world "Accept: y" = conn_world ("Host: x" +:+ CRLF +:+ "Accept: y"))
  ∨ ∃ t : string,
      String.length t = 2%nat
      ∧ pending conn (conn_world ("Host: x" +:+ CRLF +:+ "Accept: y"))
        = "Host: x" +:+ t +:+ pending conn (conn_world "Accept: y").
Proof.
  apply (read_line_accounts_for_bytes conn
           (conn_world ("Host: x" +:+ CRLF +:+ "Accept: y")) (conn_world "Accept: y")
           "Host: x").
  vm_compute. reflexivity.
Defined.

(** ** Handles and descriptors *)

Lemma fresh_cell_free (w : world) : heap w !! fresh (dom (heap w)) = None.
Proof. apply not_elem_of_dom, is_fresh. Qed.

(** The destructor of a handle that shares its cell: the descriptor is
    closed, and the cell stays, with one owner less. *)
Lemma socket_dtor_shared (s : socket) (w : world) (l : nat) (fd : Z) (n : nat)
    (q : string) :
  _fd s = Some l → heap w !! l = Some (fd, S (S n)) → fds w !! fd = Some q →
  socket_dtor s w
  = (Returns tt,
     World (delete fd (fds w)) (<[l := (fd, S n)]> (heap w))
           (closes w ++ [(fd, 0)]) (errno w)).
Proof.
  intros Hs Hl Hq. unfold socket_dtor, noexcept. rewrite Hs.
  unfold mbind, M_bind, deref, sys_close. rewrite Hl, Hq. simpl.
  unfold shared_release. simpl. by rewrite Hl.
Qed.

(** X5: a socket that is made from a descriptor and destroyed, without a
    copy in between, calls [::close] once, with success, takes the descriptor
    out of the table and frees its cell: the heap is as it was. *)
Theorem sole_owner_closes_once (fd : Z) (q : string) (w : world) :
  fds w !! fd = Some q →
  (s ← socket_of_fd fd; socket_dtor s) w
  = (Returns tt,
     World (delete fd (fds w)) (heap w) (closes w ++ [(fd, 0)]) (errno w)).
Proof.
  intros Hq. unfold socket_of_fd, make_shared, mbind, M_bind, mret, M_ret. simpl.
  unfold socket_dtor, noexcept, mbind, M_bind, deref, sys_close. simpl.
  rewrite lookup_insert_eq. simpl. rewrite Hq. simpl.
  unfold shared_release. simpl. rewrite lookup_insert_eq.
  unfold set_heap. simpl. by rewrite (delete_insert_id _ _ _ (fresh_cell_free w)).
Qed.

Lemma sole_owner_closes_once_witness :
  (s ← socket_of_fd 5; socket_dtor s) one_descriptor
  = (Returns tt, World (delete 5 (fds one_descriptor)) (heap one_descriptor)
                       (closes one_descriptor ++ [(5, 0)]) (errno one_descriptor)).
Proof. exact (sole_owner_closes_once 5 EmptyString one_descriptor eq_refl). Defined.

(** X6: a copy that goes out of scope takes the connection with it.  After a
    socket with an open descriptor has been copied and the copy destroyed,
    every [read_block] and every [read_line] on the original throws the
    [socket_error] of a failed receive ([EBADF]). *)
Theorem read_after_copy_destroyed (s : socket) (w : world) (fd : Z) (q : string)
    (n : nat) (peek : bool) :
  fd_of s w = Some fd → fds w !! fd = Some q → (0 < use_count (_fd s) w)%nat →
  ∃ w' : world,
    (t ← socket_copy s; _ ← socket_dtor t; read_block s n peek) w
    = (Throws (socket_error "Error reading from connected host: 9"), w')
    ∧ (t ← socket_copy s; _ ← socket_dtor t; read_line s) w
      = (Throws (socket_error "Error reading from connected host: 9"), w').
Proof.
  intros Hfd Hq Hcount. destruct (fd_of_Some _ _ _ Hfd) as (l & k & Hs & Hl).
  unfold use_count in Hcount. rewrite Hs, Hl in Hcount.
  destruct k as [|k]; [lia|].
  assert (socket_copy s w = (Returns s, set_heap <[l := (fd, S (S k))]> w)) as Hcopy.
  { unfold socket_copy, mbind, M_bind, shared_copy. rewrite Hs, Hl. simpl.
    unfold mret, M_ret. destruct s as [p]. simpl in Hs. by subst. }
  set (w1 := set_heap <[l := (fd, S (S k))]> w) in *.
  assert (socket_dtor s w1
          = (Returns tt,
             World (delete fd (fds w1)) (<[l := (fd, S k)]> (heap w1))
                   (closes w1 ++ [(fd, 0)]) (errno w1))) as Hdtor.
  { apply (socket_dtor_shared s w1 l fd k q); [done | apply lookup_insert_eq | done]. }
  set (w2 := World (delete fd (fds w1)) (<[l := (fd, S k)]> (heap w1))
                   (closes w1 ++ [(fd, 0)]) (errno w1)) in *.
  assert (∀ m b, read_block s m b w2
                 = (Throws (socket_error "Error reading from connected host: 9"),
                    set_errno EBADF w2)) as Hread.
  { intros m b. unfold read_block, mbind, M_bind, deref. rewrite Hs. simpl.
    rewrite lookup_insert_eq. unfold sys_recv. simpl. by rewrite lookup_delete_eq. }
  exists (set_errno EBADF w2). split.
  - rewrite (bind_returns _ _ _ _ _ Hcopy), (bind_returns _ _ _ _ _ Hdtor). apply Hread.
  - rewrite (bind_returns _ _ _ _ _ Hcopy), (bind_returns _ _ _ _ _ Hdtor).
    unfold read_line. by rewrite (bind_throws _ _ _ _ _ (Hread BUFFER_SIZE true)).
Qed.

Lemma read_after_copy_destroyed_witness :
  ∃ w' : world,
    (t ← socket_copy conn; _ ← socket_dtor t; read_block conn 4 false)
      (conn_world "GET / HTTP/1.1")
    = (Throws (socket_error "Error reading from connected host: 9"), w')
    ∧ (t ← socket_copy conn; _ ← socket_dtor t; read_line conn)
        (conn_world "GET / HTTP/1.1")
      = (Throws (socket_error "Error reading from connected host: 9"), w').
Proof.
  apply (read_after_copy_destroyed conn (conn_world "GET / HTTP/1.1") 5
           "GET / HTTP/1.1" 4 false); [reflexivity | reflexivity | vm_compute; lia].
Defined.


(** The endpoint that is the only owner of an open descriptor: [::close] is
    called twice, and the failure of the second call ends the process. *)
Lemma socket_impl_dtor_sole_owner :
  ∃ w' : world,
    socket_impl_dtor (SocketImpl conn None) (conn_world EmptyString)
    = (Aborts (socket_error "Error closing socket: 9"), w')
    ∧ closes w' = [(5, 0); (5, -1)].
Proof. eexists. split; vm_compute; reflexivity. Qed.


(** ** The endpoint *)

Section Endpoint.

Variable sys_getaddrinfo : string → string → Z * option addrinfo.
Variable gai_strerror : Z → string.
Variable sys_socket : Z → Z → Z → world → Z * world.

(** What [create] has done when it returns: the endpoint holds a fresh cell,
    of which it is the only owner. *)
Lemma create_returns_inv (si si' : socket_impl) (name : string) (port : N)
    (w w' : world) :
  create sys_getaddrinfo gai_strerror sys_socket si name port w = (Returns si', w') →
  ∃ (l : nat) (r : Z) (res : addrinfo),
    si' = SocketImpl (Socket (Some l)) (Some res)
    ∧ heap w' !! l = Some (r, 1%nat)
    ∧ sys_getaddrinfo name (Z_to_string (Z.of_N port)) = (0, Some res)
    ∧ ∃ w1, sys_socket (ai_family res) (ai_socktype res) (ai_protocol res) w = (r, w1)
            ∧ fds w' = fds w1 ∧ errno w' = errno w1.
Proof.
  unfold create. destruct (_fd (impl_socket si)) as [l0|] eqn:Hfd; [done|].
  destruct (sys_getaddrinfo name (Z_to_string (Z.of_N port))) as [err res0].
  destruct (Z.eqb_spec err 0) as [->|]; [|done]. simpl.
  destruct res0 as [res|]; [|done].
  unfold mbind, M_bind.
  destruct (sys_socket (ai_family res) (ai_socktype res) (ai_protocol res) w)
    as [r w1] eqn:Hsock.
  simpl. rewrite shared_lt_null_false. simpl. intros [= <- <-].
  eexists _, r, res. split; [done|]. split; [apply lookup_insert_eq|].
  split; [done|]. by exists w1.
Qed.

(** X8: an endpoint is created at most once.  Whenever [create] has
    returned, whatever [::socket] answered, another [create] on the endpoint
    throws "Socket already exists." and changes nothing. *)
Theorem create_twice_rejected (si si' : socket_impl) (name name' : string)
    (port port' : N) (w w' : world) :
  create sys_getaddrinfo gai_strerror sys_socket si name port w = (Returns si', w') →
  create sys_getaddrinfo gai_strerror sys_socket si' name' port' w'
  = (Throws (socket_error "Socket already exists."), w').
Proof.
  intros (l & r & res & -> & _)%create_returns_inv. done.
Qed.

(** X9: when the address does not resolve, [create] throws the message with
    the code and the text of the resolver, and does not ask for a socket: the
    world is as it was. *)
Theorem create_unresolved (si : socket_impl) (name : string) (port : N)
    (err : Z) (res0 : option addrinfo) (w : world) :
  _fd (impl_socket si) = None →
  sys_getaddrinfo name (Z_to_string (Z.of_N port)) = (err, res0) →
  err ≠ 0 →
  create sys_getaddrinfo gai_strerror sys_socket si name port w
  = (Throws (socket_error ("Could not resolve address: (" +:+ Z_to_string err
                           +:+ ") " +:+ gai_strerror err)), w).
Proof.
  intros Hfd Hres Herr. unfold create. rewrite Hfd, Hres.
  by destruct (Z.eqb_spec err 0).
Qed.

Variable sys_setsockopt : Z → world → Z * world.
Variable sys_bind : Z → addrinfo → world → Z * world.
Variable sys_listen : Z → Z → world → Z * world.
Variable sys_accept : Z → world → (Z * sockaddr_in * Z) * world.

(** X10: [server::create] configures, binds and listens, in this order, on
    the descriptor [create] stored, and stops at the first call that fails,
    with the message of that call and the [errno] it left; the calls after it
    are not made.  (The system calls leave the heap of the process alone.) *)
Theorem server_create_steps (sv sv1 : socket_impl) (name : string) (port : N)
    (r a b c : Z) (res : addrinfo) (w w1 w2 w3 w4 : world) :
  create sys_getaddrinfo gai_strerror sys_socket sv name port w = (Returns sv1, w1) →
  fd_of (impl_socket sv1) w1 = Some r → _res0 sv1 = Some res →
  sys_setsockopt r w1 = (a, w2) → heap w2 = heap w1 →
  sys_bind r res w2 = (b, w3) → heap w3 = heap w1 →
  sys_listen r 10000 w3 = (c, w4) →
  server_create sys_getaddrinfo gai_strerror sys_socket sys_setsockopt sys_bind
    sys_listen sv name port w
  = if (a <? 0)%Z then
      (Throws (socket_error ("Could not configure socket: " +:+ Z_to_string (errno w2))), w2)
    else if (b <? 0)%Z then
      (Throws (socket_error ("Could not bind to socket: " +:+ Z_to_string (errno w3))), w3)
    else if (c <? 0)%Z then
      (Throws (socket_error ("Could not listen for incoming connections: "
                             +:+ Z_to_string (errno w4))), w4)
    else (Returns sv1, w4).
Proof.
  intros Hcreate Hfd Hres Hopt Hh2 Hbind Hh3 Hlisten. unfold server_create.
  rewrite (bind_returns _ _ _ _ _ Hcreate).
  rewrite (bind_returns _ _ _ _ _ (deref_fd_of _ _ _ Hfd)).
  assert (fd_of (impl_socket sv1) w2 = Some r) as Hfd2
    by (unfold fd_of in *; by rewrite Hh2).
  assert (fd_of (impl_socket sv1) w3 = Some r) as Hfd3
    by (unfold fd_of in *; by rewrite Hh3).
  rewrite (bind_returns _ _ w1 w2 a) by (unfold syscall; by rewrite Hopt).
  destruct (a <? 0)%Z; [done|].
  rewrite (bind_returns _ _ _ _ _ (deref_fd_of _ _ _ Hfd2)). rewrite Hres.
  rewrite (bind_returns _ _ w2 w3 b) by (unfold syscall; by rewrite Hbind).
  destruct (b <? 0)%Z; [done|].
  rewrite (bind_returns _ _ _ _ _ (deref_fd_of _ _ _ Hfd3)).
  rewrite (bind_returns _ _ w3 w4 c) by (unfold syscall; by rewrite Hlisten).
  by destruct (c <? 0)%Z.
Qed.

(** X11: [accept] hands out a worker that is the only owner of the
    descriptor [::accept] returned, with the address of the client, and whose
    reads see the queue of that descriptor; when [::accept] fails it throws
    and makes no worker. *)
Theorem accept_gives_sole_owner (sv : socket_impl) (w w1 : world) (fd s : Z)
    (addr : sockaddr_in) (len : Z) :
  fd_of (impl_socket sv) w = Some fd →
  sys_accept fd w = ((s, addr, len), w1) →
  ((s < 0)%Z →
   accept sys_accept sv w
   = (Throws (socket_error ("Could not accept incoming connection: "
                            +:+ Z_to_string (errno w1))), w1))
  ∧ ((0 ≤ s)%Z →
     ∃ (wk : worker) (w2 : world),
       accept sys_accept sv w = (Returns wk, w2)
       ∧ fd_of (worker_socket wk) w2 = Some s
       ∧ use_count (_fd (worker_socket wk)) w2 = 1%nat
       ∧ _client_address wk = addr
       ∧ fds w2 = fds w1
       ∧ pending (worker_socket wk) w2 = default EmptyString (fds w1 !! s)).
Proof.
  intros Hfd Hacc.
  assert (accept sys_accept sv w
          = (if (s <? 0)%Z then
               e ← get_errno;
               throw (socket_error ("Could not accept incoming connection: "
                                    +:+ Z_to_string e))
             else sock ← socket_of_fd s; mret (Worker sock addr len)) w1) as ->.
  { unfold accept. rewrite (bind_returns _ _ _ _ _ (deref_fd_of _ _ _ Hfd)).
    unfold mbind at 1, M_bind at 1. by rewrite Hacc. }
  split; intros Hs.
  - by destruct (Z.ltb_spec s 0); [|lia].
  - destruct (Z.ltb_spec s 0); [lia|].
    eexists _, _. split; [reflexivity|]. simpl.
    unfold fd_of, use_count, pending, fd_of. simpl. rewrite !lookup_insert_eq.
    done.
Qed.

End Endpoint.

Lemma create_twice_rejected_witness :
  create resolves_all gai_text socket_gives_3 listening "localhost" 8081 listening_world
  = (Throws (socket_error "Socket already exists."), listening_world).
Proof.
  refine (create_twice_rejected resolves_all gai_text socket_gives_3
            (SocketImpl (Socket None) None) listening "localhost" "localhost" 8080 8081
            (World ∅ ∅ [] 0) listening_world _).
  vm_compute. reflexivity.
Defined.

Lemma create_unresolved_witness :
  create resolves_nothing gai_text socket_gives_3 (SocketImpl (Socket None) None)
         "nowhere.invalid" 8080 (World ∅ ∅ [] 0)
  = (Throws (socket_error "Could not resolve address: (-2) Name or service not known"),
     World ∅ ∅ [] 0).
Proof.
  refine (create_unresolved resolves_nothing gai_text socket_gives_3
            (SocketImpl (Socket None) None) "nowhere.invalid" 8080 (-2) None
            (World ∅ ∅ [] 0) eq_refl eq_refl _).
  discriminate.
Defined.

Lemma server_create_steps_witness :
  server_create resolves_all gai_text socket_gives_3 setsockopt_ok bind_in_use listen_ok
    (SocketImpl (Socket None) None) "localhost" 8080 (World ∅ ∅ [] 0)
  = (Throws (socket_error "Could not bind to socket: 98"), set_errno 98 listening_world).
Proof.
  refine (server_create_steps resolves_all gai_text socket_gives_3 setsockopt_ok
            bind_in_use listen_ok (SocketImpl (Socket None) None) listening
            "localhost" 8080 3 0 (-1) 0 (Addrinfo 2 1 6)
            (World ∅ ∅ [] 0) listening_world listening_world
            (set_errno 98 listening_world) (set_errno 98 listening_world)
            _ eq_refl eq_refl eq_refl eq_refl eq_refl eq_refl eq_refl).
  vm_compute. reflexivity.
Defined.

Lemma accept_gives_sole_owner_witness :
  ∃ (wk : worker) (w2 : world),
    accept accepts_7 listening listening_world = (Returns wk, w2)
    ∧ fd_of (worker_socket wk) w2 = Some 7
    ∧ use_count (_fd (worker_socket wk)) w2 = 1%nat
    ∧ _client_address wk = SockaddrIn 2130706433 40000
    ∧ fds w2 = fds (with_rx 7 "GET / HTTP/1.1" listening_world)
    ∧ pending (worker_socket wk) w2
      = default EmptyString (fds (with_rx 7 "GET / HTTP/1.1" listening_world) !! 7).
Proof.
  apply (proj2 (accept_gives_sole_owner accepts_7 listening listening_world
                  (with_rx 7 "GET / HTTP/1.1" listening_world) 3 7
                  (SockaddrIn 2130706433 40000) 16 eq_refl eq_refl)).
  lia.
Defined.

(** * Further properties of the request *)

(** ** Request lines that are refused *)

Lemma read_line_delivered (s : socket) (w : world) (fd : Z) (line rest : string) :
  fd_of s w = Some fd → line_ok line = true →
  read_line s (with_rx fd (line +:+ CRLF +:+ rest) w) = (Returns line, with_rx fd rest w).
Proof.
  intros Hfd Hok. rewrite <- (with_rx_twice fd (line +:+ CRLF +:+ rest) rest w).
  apply read_line_pending; [done | apply fds_with_rx | done].
Qed.

(** X12: a request line without a space is refused: [process_request_line]
    throws [request::error] with the line in the message, after the line has
    been taken from the queue. *)
Theorem request_line_without_space (r : request) (w : world) (fd : Z)
    (line rest : string) :
  fd_of (_worker r) w = Some fd → line_ok line = true →
  no_char " " line = true →
  process_request_line r (with_rx fd (line +:+ CRLF +:+ rest) w)
  = (Throws (request_error ("Invalid request line: " +:+ line)), with_rx fd rest w).
Proof.
  intros Hfd Hok Hsp. unfold process_request_line.
  rewrite (bind_returns _ _ _ _ _ (read_line_delivered _ w fd line rest Hfd Hok)).
  by rewrite advance_until_absent.
Qed.

Lemma request_line_without_space_witness :
  process_request_line (fresh_request CONNECT conn)
    (with_rx 5 ("GET" +:+ CRLF +:+ "Host: x") (conn_world EmptyString))
  = (Throws (request_error "Invalid request line: GET"),
     with_rx 5 "Host: x" (conn_world EmptyString)).
Proof.
  exact (request_line_without_space (fresh_request CONNECT conn) (conn_world EmptyString) 5
           "GET" "Host: x" eq_refl eq_refl eq_refl).
Defined.

(** X13: a request line with no [/] after the method is refused, whatever
    the method. *)
Theorem request_line_without_slash (r : request) (w : world) (fd : Z)
    (token target rest : string) :
  fd_of (_worker r) w = Some fd →
  line_ok (token +:+ String " " target) = true →
  no_char " " token = true → no_char "/" target = true →
  process_request_line r (with_rx fd ((token +:+ String " " target) +:+ CRLF +:+ rest) w)
  = (Throws (request_error ("Invalid request line: " +:+ token +:+ String " " target)),
     with_rx fd rest w).
Proof.
  intros Hfd Hok Htok Htarget. unfold process_request_line.
  rewrite (bind_returns _ _ _ _ _ (read_line_delivered _ w fd _ rest Hfd Hok)).
  rewrite advance_until_found by done. cbv iota beta.
  change (at_end (String " " ?x)) with false. cbv iota.
  by rewrite (advance_until_absent "/" (String " " target)).
Qed.

Lemma request_line_without_slash_witness :
  process_request_line (fresh_request CONNECT conn)
    (with_rx 5 (("GET" +:+ String " " "index.html") +:+ CRLF +:+ EmptyString)
       (conn_world EmptyString))
  = (Throws (request_error "Invalid request line: GET index.html"),
     with_rx 5 EmptyString (conn_world EmptyString)).
Proof.
  exact (request_line_without_slash (fresh_request CONNECT conn) (conn_world EmptyString) 5
           "GET" "index.html" EmptyString eq_refl eq_refl eq_refl eq_refl).
Defined.

(** X14: a request line that ends with the path, with no space and version
    after it, is refused. *)
Theorem request_line_without_version (r : request) (w : world) (fd : Z)
    (token pre path rest : string) :
  fd_of (_worker r) w = Some fd →
  line_ok (token +:+ String " " (pre +:+ path)) = true →
  no_char " " token = true → no_char "/" pre = true →
  starts_with_slash path = true → no_char " " path = true →
  process_request_line r
    (with_rx fd ((token +:+ String " " (pre +:+ path)) +:+ CRLF +:+ rest) w)
  = (Throws (request_error ("Invalid request line: "
                            +:+ token +:+ String " " (pre +:+ path))),
     with_rx fd rest w).
Proof.
  intros Hfd Hok Htok Hpre Hslash Hpath. unfold process_request_line.
  rewrite (bind_returns _ _ _ _ _ (read_line_delivered _ w fd _ rest Hfd Hok)).
  rewrite advance_until_found by done. cbv iota beta.
  change (at_end (String " " ?x)) with false. cbv iota.
  destruct path as [|c p]; [done|]. simpl in Hslash.
  apply Ascii.eqb_eq in Hslash as ->.
  change (advance_until "/" (String " " (pre +:+ String "/" p)))
    with (advance_until "/" (String " " pre +:+ String "/" p)).
  rewrite (advance_until_found "/" (String " " pre)) by (simpl; done).
  cbv iota beta. change (at_end (String "/" ?x)) with false. cbv iota.
  by rewrite (advance_until_absent " " (String "/" p)).
Qed.

Lemma request_line_without_version_witness :
  process_request_line (fresh_request CONNECT conn)
    (with_rx 5 (("GET" +:+ String " " (EmptyString +:+ "/index.html"))
                +:+ CRLF +:+ EmptyString) (conn_world EmptyString))
  = (Throws (request_error "Invalid request line: GET /index.html"),
     with_rx 5 EmptyString (conn_world EmptyString)).
Proof.
  exact (request_line_without_version (fresh_request CONNECT conn) (conn_world EmptyString) 5
           "GET" EmptyString "/index.html" EmptyString
           eq_refl eq_refl eq_refl eq_refl eq_refl eq_refl).
Defined.

(** X15: a client that connects and closes without sending anything gets no
    request: the constructor throws [request::error] for the empty request
    line, and the world is as it was. *)
Theorem request_from_closed_connection (crend_deref : string → ascii)
    (garbage : method) (worker : socket) (w : world) (fd : Z) :
  fd_of worker w = Some fd → fds w !! fd = Some EmptyString →
  request_ctor crend_deref garbage worker w
  = (Throws (request_error "Invalid request line: "), w).
Proof.
  intros Hfd Hq. unfold request_ctor, process_request_line.
  rewrite (bind_throws _ _ w w (request_error "Invalid request line: ")); [done|].
  by rewrite (bind_returns _ _ _ _ _ (read_line_eof worker w fd Hfd Hq)).
Qed.

Lemma request_from_closed_connection_witness :
  request_ctor zero_before CONNECT conn (conn_world EmptyString)
  = (Throws (request_error "Invalid request line: "), conn_world EmptyString).
Proof.
  exact (request_from_closed_connection zero_before CONNECT conn (conn_world EmptyString) 5
           eq_refl eq_refl).
Defined.

(** ** The shape of what is parsed *)

Lemma advance_until_passed (c : ascii) (s : string) :
  no_char c (advance_until c s).1 = true.
Proof.
  induction s as [|a s IH]; simpl; [done|].
  destruct (Ascii.eqb a c) eqn:E; [done|].
  destruct (advance_until c s) as [passed from]. simpl in *. by rewrite E.
Qed.

Lemma advance_until_from (c : ascii) (s : string) :
  (advance_until c s).2 = EmptyString
  ∨ ∃ x, (advance_until c s).2 = String c x.
Proof.
  induction s as [|a s IH]; simpl; [by left|].
  destruct (Ascii.eqb_spec a c) as [->|]; [right; by eexists|].
  by destruct (advance_until c s) as [passed from].
Qed.

(** X16: the path of every request that [process_request_line] produces
    begins with [/] and holds no space; the parser writes the method and the
    path only: the route, the headers and the worker are as before. *)
Theorem parsed_path_shape (r r' : request) (w w' : world) :
  process_request_line r w = (Returns r', w') →
  starts_with_slash (_path r') = true ∧ no_char " " (_path r') = true
  ∧ _route r' = _route r ∧ _header r' = _header r ∧ _worker r' = _worker r.
Proof.
  unfold process_request_line, mbind, M_bind.
  destruct (read_line (_worker r) w) as [[line|e|e|] w1]; [|done..].
  destruct (advance_until " " line) as [token last].
  destruct (at_end last); [done|].
  pose proof (advance_until_from "/" last) as Hfrom.
  destruct (advance_until "/" last) as [skipped first]. simpl in Hfrom.
  destruct Hfrom as [->|[x ->]]; [done|].
  change (at_end (String "/" x)) with false. cbv iota.
  pose proof (advance_until_passed " " (String "/" x)) as Hpassed.
  simpl in Hpassed. simpl.
  destruct (advance_until " " x) as [passed from]. simpl in Hpassed.
  destruct (at_end from); [done|].
  intros [= <- <-]. simpl.
  destruct (store_method_worker (lowercase token) r) as (Hw & Hh & _ & Hr).
  by rewrite Hpassed, Hw, Hh, Hr.
Qed.

Lemma parsed_path_shape_witness :
  starts_with_slash "/index.html" = true ∧ no_char " " "/index.html" = true.
Proof.
  pose proof (parsed_path_shape (fresh_request CONNECT conn)
                (Request conn GET "/index.html" EmptyString [])
                (conn_world ("GET example.com/index.html HTTP/1.1" +:+ CRLF))
                (conn_world EmptyString)) as H.
  destruct H as (H1 & H2 & _); [vm_compute; reflexivity|]. by split.
Defined.

(** ** Header lines *)

Lemma process_header_lines_throws_witness :
  ∃ what : string, socket_error "Line not found" = socket_error what.
Proof.
  refine (process_header_lines_throws zero_before (fresh_request CONNECT conn)
            (conn_world (long_header_line +:+ CRLF +:+ CRLF))
            (conn_world (long_header_line +:+ CRLF +:+ CRLF))
            (socket_error "Line not found") _).
  vm_compute. reflexivity.
Defined.

Section HeaderStore.

Variable crend_deref : string → ascii.

(** The value a line [name:value] leaves under its name. *)
Lemma last_line_found (ls : list string) (l name value name' : string)
    (st : string * header_map) :
  advance_while " " l = name +:+ String ":" value → no_char ":" name = true →
  (continuation crend_deref (run_lines crend_deref ls st).1
                (run_lines crend_deref ls st).2).1 = false →
  lowercase name' = lowercase name →
  map_find name' (run_lines crend_deref (ls ++ [l])%list st).2
  = Some (advance_while " " value).
Proof.
  intros Hl Hname Hcont Hcase. rewrite run_lines_app. simpl.
  destruct (run_lines crend_deref ls st) as [cur hdr].
  simpl in Hcont. unfold header_line_body.
  destruct (continuation crend_deref cur hdr) as [continued hdr']. simpl in Hcont.
  subst continued. rewrite Hl, advance_until_found by done. simpl.
  by rewrite (map_find_variant name' name _ Hcase), map_find_assign.
Qed.

(** X19: a header line is found again.  When the last line of a block is
    [name:value] (after its leading spaces; the name is everything in front of
    the first colon), and the continuation test is false when the line is
    met, the request has the header under every spelling of the name that
    differs in case only: [has_header] is true and [header] returns the value
    without its leading spaces. *)
Theorem header_line_stored (r : request) (w : world) (fd : Z) (ls : list string)
    (l name value : string) (blank : bool) (rest name' : string) :
  fd_of (_worker r) w = Some fd →
  forallb carried (ls ++ [l])%list = true →
  advance_while " " l = name +:+ String ":" value → no_char ":" name = true →
  (continuation crend_deref (run_lines crend_deref ls (EmptyString, _header r)).1
                (run_lines crend_deref ls (EmptyString, _header r)).2).1 = false →
  lowercase name' = lowercase name →
  ∃ req : request,
    process_header_lines crend_deref r
      (with_rx fd (encode_lines (ls ++ [l])%list +:+ block_end blank rest) w)
    = (Returns req, with_rx fd (after_block blank rest) w)
    ∧ has_header name' req = true
    ∧ header name' req = Returns (advance_while " " value).
Proof.
  intros Hfd Hls Hl Hname Hcont Hcase. eexists. split.
  - by apply process_header_lines_block.
  - unfold has_header, header. simpl _header.
    by rewrite (last_line_found ls l name value name' _ Hl Hname Hcont Hcase).
Qed.

(** X20: when the continuation test is true, the line is not looked at: with
    or without a colon, it is appended, after one space and without its
    leading spaces, to the value of the current name, which stays the current
    name. *)
Theorem continued_line_appended (l name v : string) (hdr : header_map) :
  (0 < String.length name)%nat → map_find name hdr = Some v →
  crend_deref v = ","%char →
  header_line_body crend_deref l (name, hdr)
  = (name, map_assign name (v +:+ " " +:+ advance_while " " l) hdr)
  ∧ map_find name (header_line_body crend_deref l (name, hdr)).2
    = Some (v +:+ " " +:+ advance_while " " l).
Proof.
  intros Hname Hfind Hbyte.
  assert (map_index name hdr = (v, hdr)) as Hindex.
  { unfold map_index. rewrite (map_touch_found name hdr) by eauto. by rewrite Hfind. }
  assert (header_line_body crend_deref l (name, hdr)
          = (name, map_assign name (v +:+ " " +:+ advance_while " " l) hdr)) as ->.
  { unfold header_line_body, continuation.
    destruct (Nat.ltb_spec 0 (String.length name)); [|lia].
    rewrite Hindex, Hbyte. cbv iota beta. rewrite Ascii.eqb_refl. cbv iota beta.
    by rewrite Hindex. }
  split; [done|]. apply map_find_assign.
Qed.

End HeaderStore.

Lemma header_line_stored_witness :
  ∃ req : request,
    process_header_lines zero_before (fresh_request CONNECT conn)
      (with_rx 5 (encode_lines (["Accept: y"] ++ ["  Host :   x"])%list
                  +:+ block_end true "body") (conn_world EmptyString))
    = (Returns req, with_rx 5 (after_block true "body") (conn_world EmptyString))
    ∧ has_header "hOST " req = true
    ∧ header "hOST " req = Returns (advance_while " " "   x").
Proof.
  exact (header_line_stored zero_before (fresh_request CONNECT conn) (conn_world EmptyString) 5
           ["Accept: y"] "  Host :   x" "Host " "   x" true "body" "hOST "
           eq_refl eq_refl eq_refl eq_refl eq_refl eq_refl).
Defined.

Lemma continued_line_appended_witness :
  header_line_body comma_before "Y: c" ("X", [("X", "a")])
  = ("X", map_assign "X" ("a" +:+ " " +:+ advance_while " " "Y: c") [("X", "a")])
  ∧ map_find "X" (header_line_body comma_before "Y: c" ("X", [("X", "a")])).2
    = Some ("a" +:+ " " +:+ advance_while " " "Y: c").
Proof.
  apply (continued_line_appended comma_before "Y: c" "X" "a" [("X", "a")]);
    [vm_compute; lia | reflexivity | reflexivity].
Defined.

(** ** The comparator and the other headers *)

Lemma map_find_assign_other (k k' v : string) (m : header_map) :
  lowercase k' ≠ lowercase k →
  map_find k' (map_assign k v m) = map_find k' m.
Proof.
  intros Hne. unfold map_assign.
  assert (no_case_compare k' k = false → no_case_compare k k' = false → False) as Hord.
  { intros H1 H2. by apply Hne, no_case_compare_equiv. }
  induction m as [|[x u] m IH]; simpl.
  - rewrite no_case_compare_irrefl. simpl.
    destruct (no_case_compare k' k) eqn:E1; [done|].
    destruct (no_case_compare k k') eqn:E2; [done|]. by destruct Hord.
  - destruct (no_case_compare k x) eqn:Ekx; simpl.
    + rewrite no_case_compare_irrefl. simpl.
      destruct (no_case_compare k' k) eqn:E1.
      * by rewrite (no_case_compare_trans k' k x E1 Ekx).
      * destruct (no_case_compare k k') eqn:E2; [done|]. by destruct Hord.
    + destruct (no_case_compare x k) eqn:Exk; simpl; rewrite Ekx, Exk; simpl.
      * destruct (no_case_compare k' x); [done|].
        destruct (no_case_compare x k'); [apply IH | done].
      * destruct (no_case_compare k' x) eqn:E1; [done|].
        destruct (no_case_compare x k') eqn:E2; [done|].
        destruct Hne.
        rewrite (no_case_compare_equiv k' x E1 E2).
        symmetry. by apply no_case_compare_equiv.
Qed.

(** X21: a header line changes one header at most, the one of the name that
    is current after the line.  Every header whose name differs from it, also
    when case is not regarded, is after the line what it was before. *)
Theorem header_line_frame (crend_deref : string → ascii) (l : string)
    (st : string * header_map) (k' : string) :
  tracked st →
  lowercase k' ≠ lowercase (header_line_body crend_deref l st).1 →
  map_find k' (header_line_body crend_deref l st).2 = map_find k' st.2.
Proof.
  destruct st as [name hdr]. intros Ht. unfold header_line_body.
  pose proof (continuation_map crend_deref name hdr Ht) as Hmap.
  unfold continuation in *.
  destruct (Nat.ltb_spec 0 (String.length name)) as [Hlen|Hlen].
  - assert (map_touch name hdr = hdr) as Htouch.
    { destruct Ht as [E|Hfound]; simpl in *; [subst; simpl in Hlen; lia|].
      by apply map_touch_found. }
    unfold map_index. rewrite Htouch. simpl.
    destruct (Ascii.eqb (crend_deref (default EmptyString (map_find name hdr))) ",").
    + rewrite Htouch. simpl. apply map_find_assign_other.
    + destruct (advance_until ":" (advance_while " " l)) as [passed [|c itr]]; [done|].
      simpl. apply map_find_assign_other.
  - simpl.
    destruct (advance_until ":" (advance_while " " l)) as [passed [|c itr]]; [done|].
    simpl. apply map_find_assign_other.
Qed.

Lemma header_line_frame_witness :
  map_find "host" (header_line_body zero_before "Accept: y" ("Host", [("Host", "x")])).2
  = map_find "host" ("Host", [("Host", "x")]).2.
Proof.
  apply (header_line_frame zero_before "Accept: y" ("Host", [("Host", "x")]) "host").
  - right. simpl. eauto.
  - vm_compute. discriminate.
Defined.

(** ** The default header of the server *)



(** * Further properties: what ends a line, what names a header *)

Lemma scan_eol_any (line rest : string) (e1 e2 : ascii) (p : nat) :
  count_eol line = 0%nat → is_eol e1 = true → is_eol e2 = true →
  scan_eol (line +:+ String e1 (String e2 rest)) p 0
  = ((p + String.length line + 2)%nat, 2%nat).
Proof.
  revert p. induction line as [|c line IH]; intros p Hline H1 H2.
  - rewrite app_nil. simpl. rewrite H1, H2. destruct rest; simpl; f_equal; lia.
  - rewrite app_cons. simpl in *. destruct (is_eol c); [lia|].
    rewrite IH by done. f_equal. lia.
Qed.

(** X24: any two bytes that are CR or LF end a line, in any order and also
    twice the same: after a stretch without CR and LF, within the window,
    [read_line] returns the stretch and takes it and the two bytes. *)
Theorem read_line_any_terminator (s : socket) (w : world) (fd : Z)
    (line rest : string) (e1 e2 : ascii) :
  fd_of s w = Some fd →
  count_eol line = 0%nat → (String.length line + 2 ≤ BUFFER_SIZE)%nat →
  is_eol e1 = true → is_eol e2 = true →
  read_line s (with_rx fd (line +:+ String e1 (String e2 rest)) w)
  = (Returns line, with_rx fd rest w).
Proof.
  intros Hfd Hline Hlen H1 H2.
  set (q := line +:+ String e1 (String e2 rest)).
  assert (fds (with_rx fd q w) !! fd = Some q) as Hq by apply fds_with_rx.
  assert (fd_of s (with_rx fd q w) = Some fd) as Hfd' by done.
  unfold read_line. remember BUFFER_SIZE as n eqn:Hn. clear Hn.
  rewrite (bind_returns _ _ _ _ _ (read_block_peek _ _ _ _ n Hfd' Hq)).
  assert (str_take n q
          = line +:+ String e1 (String e2 (str_take (n - String.length line - 2) rest)))
    as Htake.
  { unfold q.
    replace n with (String.length line + (2 + (n - String.length line - 2)))%nat at 1
      by lia.
    by rewrite str_take_app. }
  rewrite Htake.
  set (t := str_take (n - String.length line - 2) rest).
  assert (String.length (line +:+ String e1 (String e2 t))
          = S (S (String.length line + String.length t)))
    as -> by (rewrite length_app; simpl; lia).
  change (0 <? S ?x)%nat with true. cbv iota.
  rewrite scan_eol_any by done.
  change (2 <? 2)%nat with false. cbv iota beta.
  rewrite (bind_returns _ _ _ _ _
             (read_block_consume _ _ _ _ (0 + String.length line + 2) Hfd' Hq)).
  replace (0 + String.length line + 2)%nat with (String.length line + 2)%nat by lia.
  unfold q. rewrite str_take_app, str_drop_app.
  replace (str_take 2 (String e1 (String e2 rest))) with (String e1 (String e2 EmptyString))
    by (by destruct rest).
  replace (str_drop 2 (String e1 (String e2 rest))) with rest by reflexivity.
  rewrite length_app, with_rx_twice.
  change (String.length (String e1 (String e2 EmptyString))) with 2%nat.
  destruct (Nat.ltb_spec (String.length line + 2) 2) as [Hlt|_].
  - destruct line; simpl in Hlt; lia.
  - replace (String.length line + 2 - 2)%nat with (String.length line + 0)%nat by lia.
    rewrite str_take_app, str_take_0. unfold mret, M_ret. by rewrite app_empty_r.
Qed.

Lemma read_line_any_terminator_witness :
  read_line conn (with_rx 5 ("Host: x" +:+ String LF (String LF "body"))
                    (conn_world EmptyString))
  = (Returns "Host: x", with_rx 5 "body" (conn_world EmptyString)).
Proof.
  apply (read_line_any_terminator conn (conn_world EmptyString) 5 "Host: x" "body" LF LF);
    [reflexivity | reflexivity | apply Nat.leb_le; reflexivity | reflexivity | reflexivity].
Defined.

Lemma map_touch_names (k : string) (m : header_map) :
  header_name_ok k = true → names_ok m → names_ok (map_touch k m).
Proof.
  intros Hk. unfold names_ok. induction m as [|[x u] m IH]; simpl; intros Hm.
  - by constructor.
  - destruct (no_case_compare k x); [by constructor|].
    destruct (no_case_compare x k); [|done].
    inversion Hm; subst. constructor; [done | by apply IH].
Qed.

Lemma map_put_names (k v : string) (m : header_map) :
  names_ok m → names_ok (map_put k v m).
Proof.
  unfold names_ok. induction m as [|[x u] m IH]; simpl; intros Hm; [done|].
  destruct (no_case_compare k x); [done|].
  inversion Hm; subst.
  destruct (no_case_compare x k); constructor; auto.
Qed.

Lemma advance_while_head (s : string) :
  match advance_while " " s with
  | String c _ => negb (Ascii.eqb c " ")
  | EmptyString => true
  end = true.
Proof.
  induction s as [|a s IH]; simpl; [done|].
  destruct (Ascii.eqb a " ") eqn:E; [done|]. simpl. by rewrite E.
Qed.

Lemma advance_until_head (c : ascii) (s : string) :
  match (advance_until c s).1, s with
  | String a _, String b _ => a = b
  | String _ _, EmptyString => False
  | EmptyString, _ => True
  end.
Proof.
  destruct s as [|b s]; simpl; [done|].
  destruct (Ascii.eqb b c); [done|]. by destruct (advance_until c s).
Qed.

(** X23: the names in the header map are what stands in front of a colon:
    whatever the lines, no name that [process_header_lines] stores holds a
    colon or begins with a space (spaces behind the name are kept). *)
Theorem header_names_shape (crend_deref : string → ascii) (ls : list string)
    (st : string * header_map) :
  header_name_ok st.1 = true → names_ok st.2 →
  header_name_ok (run_lines crend_deref ls st).1 = true
  ∧ names_ok (run_lines crend_deref ls st).2.
Proof.
  revert st. induction ls as [|l ls IH]; intros st Hname Hmap; [done|].
  simpl. apply IH; destruct st as [name hdr]; simpl in *;
    unfold header_line_body, continuation, map_index, map_assign.
  - destruct (0 <? String.length name)%nat;
      [destruct (Ascii.eqb _ ",")|]; simpl; try done;
      (pose proof (advance_until_passed ":" (advance_while " " l)) as Hp;
       pose proof (advance_until_head ":" (advance_while " " l)) as Hh;
       pose proof (advance_while_head l) as Hw;
       destruct (advance_until ":" (advance_while " " l)) as [passed [|c itr]];
       [done|]; simpl in *; unfold header_name_ok; rewrite Hp; simpl;
       destruct passed as [|a passed]; [done|];
       destruct (advance_while " " l) as [|b t]; [done|]; by subst).
  - destruct (0 <? String.length name)%nat;
      [destruct (Ascii.eqb _ ",")|]; simpl;
      repeat (apply map_put_names || apply map_touch_names); try done;
      (pose proof (advance_until_passed ":" (advance_while " " l)) as Hp;
       pose proof (advance_until_head ":" (advance_while " " l)) as Hh;
       pose proof (advance_while_head l) as Hw;
       destruct (advance_until ":" (advance_while " " l)) as [passed [|c itr]];
       simpl in *; repeat (apply map_put_names || apply map_touch_names); try done;
       unfold header_name_ok; rewrite Hp; simpl;
       destruct passed as [|a passed]; [done|];
       destruct (advance_while " " l) as [|b t]; [done|]; by subst).
Qed.

Lemma header_names_shape_witness :
  header_name_ok (run_lines zero_before ["  Host : x"; "no colon"; ": y"]
                    (EmptyString, [])).1 = true
  ∧ names_ok (run_lines zero_before ["  Host : x"; "no colon"; ": y"]
                (EmptyString, [])).2.
Proof.
  apply (header_names_shape zero_before ["  Host : x"; "no colon"; ": y"]
           (EmptyString, [])); [reflexivity | constructor].
Defined.
